(** * Verification of the CArchive bridge of apple/containerization

    Shallow embedding of [src/Sources/ContainerizationArchive/CArchive/archive_swift_bridge.c]:
    - [zstd_decompress_fd], the streaming zstd decompression transform
      between two file descriptors, as explicit state passing over a
      scripted operating-system world that records every library and system
      call in a trace;
    - [archive_set_error_wrapper], over a model of libarchive's
      [archive_set_error] and its printf-style formatter.

    The zstd library, [malloc]/[free] and [read]/[write] are external to the
    repository; they appear as an interface ([Zstd.api]) and a scripted world
    ([world]), and the theorems quantify over them. *)

From Stdlib Require Import String Ascii ZArith Lia Bool List.
From Stdlib Require Import Init.Byte.
From Stdlib Require Strings.Byte.
Import ListNotations.

(** ** The zstd streaming-decompression interface *)

Module Zstd.

(** A [size_t] returned by the library: [ZSTD_isError] tells error codes
    apart from ordinary results (for [ZSTD_decompressStream], a hint of the
    number of input bytes still expected; 0 once a frame is complete). *)
Inductive zres := ZSTD_error (code : nat) | ZSTD_ok (hint : nat).

Definition ZSTD_isError (r : zres) : bool :=
  match r with ZSTD_error _ => true | ZSTD_ok _ => false end.

(** The library functions the bridge calls, over the library's opaque
    stream state [D] ([ZSTD_DStream]).  [ZSTD_decompressStream d src room]
    receives the unconsumed input [src[pos..size)] and the free room
    [size - pos] of the output buffer; it returns its result, the number of
    input bytes it consumed (the advance of [input.pos]) and the bytes it
    produced (the advance of [output.pos]). *)
Record api (D : Type) := mkApi {
  ZSTD_createDStream : option D;
  ZSTD_initDStream : D -> zres * D;
  ZSTD_DStreamInSize : nat;
  ZSTD_DStreamOutSize : nat;
  ZSTD_decompressStream : D -> list byte -> nat -> zres * nat * list byte * D
}.

Arguments mkApi {D}.
Arguments ZSTD_createDStream {D}.
Arguments ZSTD_initDStream {D}.
Arguments ZSTD_DStreamInSize {D}.
Arguments ZSTD_DStreamOutSize {D}.
Arguments ZSTD_decompressStream {D}.

End Zstd.

Import Zstd.

(** ** The operating-system world *)

(** The two staging buffers of the transform, named by their variables. *)
Inductive buf := InBuf | OutBuf.

(** Every call the transform makes, in the order it makes it. *)
Inductive event :=
| EvCreateDStream (ok : bool)
| EvInitDStream (is_error : bool)
| EvFreeDStream
| EvMalloc (b : buf) (size : nat) (ok : bool)
| EvFree (b : buf) (nonnull : bool)
| EvRead (fd : Z) (count : nat) (ret : Z)
| EvDecompressStream (in_size in_pos out_size out_pos : nat) (is_error : bool)
    (consumed produced : nat)
| EvWrite (fd : Z) (count : nat) (ret : Z).

(** Scripted answers of [read] on the source descriptor: a piece of data
    that becomes available (delivered over as many reads as needed), or a
    failing read.  An exhausted script is end of file. *)
Inductive read_resp := RdData (bs : list byte) | RdError.

(** Scripted answers of [write] on the destination descriptor: accept all,
    accept at most [n] bytes, or fail.  An exhausted script accepts all. *)
Inductive write_resp := WrAll | WrShort (n : nat) | WrError.

Record world := mkWorld {
  w_malloc : list bool;        (* answers of malloc: false is NULL; default true *)
  w_src : list read_resp;      (* what the source descriptor delivers *)
  w_dst : list write_resp;     (* how the destination descriptor answers *)
  w_out : list byte;           (* bytes written to the destination *)
  w_trace : list event         (* calls made so far *)
}.

(** A state monad over the world; [None] is a run that does not terminate
    within the given fuel (the loops of the C code are unbounded). *)
Definition M (A : Type) := world -> option (A * world).

Definition ret {A} (a : A) : M A := fun w => Some (a, w).
Definition bind {A B} (m : M A) (k : A -> M B) : M B :=
  fun w => match m w with Some (a, w') => k a w' | None => None end.
Definition stuck {A} : M A := fun _ => None.

Notation "x <- m ;; k" := (bind m (fun x => k)) (at level 61, m at next level, right associativity).
Notation "' p <- m ;; k" := (bind m (fun x => match x with p => k end))
  (at level 61, p pattern, m at next level, right associativity).
Notation "m ;;; k" := (bind m (fun _ => k)) (at level 61, right associativity).

Definition log (e : event) (w : world) : world :=
  mkWorld (w_malloc w) (w_src w) (w_dst w) (w_out w) (w_trace w ++ [e]).

Definition emit (e : event) : M unit := fun w => Some (tt, log e w).

(** [malloc]: a pointer is [true] when non-NULL. *)
Definition malloc (b : buf) (size : nat) : M bool := fun w =>
  let ok := match w_malloc w with [] => true | x :: _ => x end in
  Some (ok, mkWorld (tl (w_malloc w)) (w_src w) (w_dst w) (w_out w)
                    (w_trace w ++ [EvMalloc b size ok])).

(** [free]: also called, as a no-op, on NULL. *)
Definition free (b : buf) (p : bool) : M unit := emit (EvFree b p).

Definition read_script (count : nat) (src : list read_resp)
  : Z * list byte * list read_resp :=
  match src with
  | [] => (0%Z, [], [])
  | RdError :: rest => ((-1)%Z, [], rest)
  | RdData bs :: rest =>
      let got := firstn count bs in
      let left := skipn count bs in
      (Z.of_nat (length got), got,
       match left with [] => rest | _ => RdData left :: rest end)
  end.

(** [read(fd, buf, count)]: the returned [ssize_t] and the bytes read. *)
Definition read (fd : Z) (count : nat) : M (Z * list byte) := fun w =>
  let '(r, got, src') := read_script count (w_src w) in
  Some ((r, got), mkWorld (w_malloc w) src' (w_dst w) (w_out w)
                          (w_trace w ++ [EvRead fd count r])).

Definition write_script (bs : list byte) (dst : list write_resp)
  : Z * list byte * list write_resp :=
  match dst with
  | [] => (Z.of_nat (length bs), bs, [])
  | WrAll :: rest => (Z.of_nat (length bs), bs, rest)
  | WrShort n :: rest => (Z.of_nat (length (firstn n bs)), firstn n bs, rest)
  | WrError :: rest => ((-1)%Z, [], rest)
  end.

(** [write(fd, buf, count)] with [count = length bs]. *)
Definition write (fd : Z) (bs : list byte) : M Z := fun w =>
  let '(r, acc, dst') := write_script bs (w_dst w) in
  Some (r, mkWorld (w_malloc w) (w_src w) dst' (w_out w ++ acc)
                   (w_trace w ++ [EvWrite fd (length bs) r])).

(** ** The transform *)

Section Bridge.

Context {D : Type} (zstd : api D).

(** [ZSTD_inBuffer] and [ZSTD_outBuffer] (the [src]/[dst] pointers are the
    staging buffers, whose contents are passed separately). *)
Record inBuffer := mkIn { in_size : nat; in_pos : nat }.
Record outBuffer := mkOut { out_size : nat; out_pos : nat }.

Definition createDStream : M (option D) := fun w =>
  let r := ZSTD_createDStream zstd in
  Some (r, log (EvCreateDStream (match r with Some _ => true | None => false end)) w).

Definition initDStream (d : D) : M (zres * D) := fun w =>
  let '(r, d') := ZSTD_initDStream zstd d in
  Some ((r, d'), log (EvInitDStream (ZSTD_isError r)) w).

Definition freeDStream : M unit := emit EvFreeDStream.

(** [ZSTD_decompressStream(dstream, &output, &input)] on the chunk held in
    [in_buf]: returns the result and the updated buffers. *)
Definition decompressStream (d : D) (output : outBuffer) (in_buf : list byte)
    (input : inBuffer) : M (zres * outBuffer * list byte * inBuffer * D) :=
  fun w =>
  let '(result, consumed, produced, d') :=
    ZSTD_decompressStream zstd d
      (skipn (in_pos input) (firstn (in_size input) in_buf))
      (out_size output - out_pos output) in
  Some ((result,
         mkOut (out_size output) (out_pos output + length produced),
         produced,
         mkIn (in_size input) (in_pos input + consumed), d'),
        log (EvDecompressStream (in_size input) (in_pos input)
               (out_size output) (out_pos output)
               (ZSTD_isError result) consumed (length produced)) w).

(** How a loop is left: normally, or by [goto done] with [rc = 1]. *)
Inductive inner_exit := InnerDone | InnerGoto.
Inductive outer_exit := OuterEnd (bytes_read : Z) | OuterGoto.

(** [while (input.pos < input.size) { ... }] *)
Fixpoint inner_loop (fuel : nat) (dst_fd : Z) (d : D) (in_buf : list byte)
    (input : inBuffer) : M (inner_exit * D) :=
  match fuel with
  | O => stuck
  | S fuel' =>
    if in_pos input <? in_size input then
      let output := mkOut (ZSTD_DStreamOutSize zstd) 0 in
      '(result, output, out_buf, input, d) <- decompressStream d output in_buf input ;;
      if ZSTD_isError result then ret (InnerGoto, d) else
      if 0 <? out_pos output then
        written <- write dst_fd (firstn (out_pos output) out_buf) ;;
        if negb (Z.eqb written (Z.of_nat (out_pos output))) then ret (InnerGoto, d)
        else inner_loop fuel' dst_fd d in_buf input
      else inner_loop fuel' dst_fd d in_buf input
    else ret (InnerDone, d)
  end.

(** [while ((bytes_read = read(src_fd, in_buf, in_size)) > 0) { ... }] *)
Fixpoint read_loop (fuel : nat) (src_fd dst_fd : Z) (d : D)
  : M (outer_exit * D) :=
  match fuel with
  | O => stuck
  | S fuel' =>
    '(bytes_read, in_buf) <- read src_fd (ZSTD_DStreamInSize zstd) ;;
    if (0 <? bytes_read)%Z then
      let input := mkIn (Z.to_nat bytes_read) 0 in
      '(ex, d) <- inner_loop fuel' dst_fd d in_buf input ;;
      match ex with
      | InnerGoto => ret (OuterGoto, d)
      | InnerDone => read_loop fuel' src_fd dst_fd d
      end
    else ret (OuterEnd bytes_read, d)
  end.

(** [rc] at label [done]: 1 after a [goto done], else
    [if (bytes_read < 0) rc = 1]. *)
Definition exit_rc (ex : outer_exit) : Z :=
  match ex with
  | OuterGoto => 1
  | OuterEnd bytes_read => if (bytes_read <? 0)%Z then 1 else 0
  end.

Definition zstd_decompress_fd (fuel : nat) (src_fd dst_fd : Z) : M Z :=
  dstream <- createDStream ;;
  match dstream with
  | None => ret 1%Z
  | Some d =>
    '(init_result, d) <- initDStream d ;;
    if ZSTD_isError init_result then freeDStream ;;; ret 1%Z else
    let in_size := ZSTD_DStreamInSize zstd in
    let out_size := ZSTD_DStreamOutSize zstd in
    in_buf <- malloc InBuf in_size ;;
    out_buf <- malloc OutBuf out_size ;;
    if negb in_buf || negb out_buf then
      free InBuf in_buf ;;; free OutBuf out_buf ;;; freeDStream ;;; ret 1%Z
    else
      '(ex, d) <- read_loop fuel src_fd dst_fd d ;;
      let rc := exit_rc ex in
      free InBuf in_buf ;;; free OutBuf out_buf ;;; freeDStream ;;; ret rc
  end.

End Bridge.

(** ** A small codec with zstd's streaming contract

    Used to run the transform on concrete inputs.  A frame is a header byte
    [n] followed by [n] payload bytes (a stored block); header byte 255 is
    reserved and rejected, as zstd rejects a bad magic number.  Payload is
    produced as it is consumed, so, as in zstd, the last byte of a frame is
    not consumed before all of the frame's output is handed out.  The
    result is the zstd hint: 0 when the current frame is complete, the
    number of payload bytes still expected otherwise. *)

Module RawCodec.

Inductive state := Header | Body (n : nat).

Definition next_after_header (n : nat) : state :=
  if Nat.eqb n 0 then Header else Body n.

Definition next_after_payload (n : nat) : state :=
  if Nat.eqb n 1 then Header else Body (n - 1).

(** consumed, produced, new state, error *)
Fixpoint run (st : state) (inp : list byte) (room : nat)
  : nat * list byte * state * bool :=
  match inp with
  | [] => (0, [], st, false)
  | b :: inp' =>
    match st with
    | Header =>
      if Byte.eqb b xff then (0, [], st, true) else
      let '(k, o, st', e) := run (next_after_header (Byte.to_nat b)) inp' room in
      (S k, o, st', e)
    | Body n =>
      match room with
      | O => (0, [], st, false)
      | S room' =>
        let '(k, o, st', e) := run (next_after_payload n) inp' room' in
        (S k, b :: o, st', e)
      end
    end
  end.

Definition hint (st : state) : nat :=
  match st with Header => 0 | Body n => n end.

Definition decompressStream (st : state) (inp : list byte) (room : nat)
  : zres * nat * list byte * state :=
  let '(k, o, st', e) := run st inp room in
  if e then (ZSTD_error 1, k, o, st') else (ZSTD_ok (hint st'), k, o, st').

Definition lib (isz osz : nat) : api state :=
  mkApi (Some Header) (fun st => (ZSTD_ok 0, Header)) isz osz decompressStream.

(** The reference decoder: what a whole remaining stream decodes to from a
    state; [None] for a stream that is malformed or ends inside a frame. *)
Fixpoint decode (st : state) (inp : list byte) : option (list byte) :=
  match inp with
  | [] => match st with Header => Some [] | Body _ => None end
  | b :: inp' =>
    match st with
    | Header =>
      if Byte.eqb b xff then None else decode (next_after_header (Byte.to_nat b)) inp'
    | Body n => option_map (cons b) (decode (next_after_payload n) inp')
    end
  end.

(** The reference compressor: stored frames of at most 254 bytes. *)
Definition header_byte (n : nat) : byte :=
  match Byte.of_nat n with Some b => b | None => xff end.

Fixpoint compress_aux (fuel : nat) (bs : list byte) : list byte :=
  match fuel with
  | O => []
  | S fuel' =>
    match bs with
    | [] => []
    | _ => let blk := firstn 254 bs in
           header_byte (length blk) :: blk ++ compress_aux fuel' (skipn 254 bs)
    end
  end.

Definition compress (bs : list byte) : list byte := compress_aux (length bs) bs.

End RawCodec.

(** The world of a transform whose source delivers [src], whose allocations
    and writes all succeed. *)
Definition world_of (src : list read_resp) : world := mkWorld [] src [] [] [].

(** ** The calls a run makes

    The shape of the trace of every terminating run, read off the code:
    [inner_tr n p] is the trace of the inner loop on a chunk of [n] bytes
    from cursor [p], [outer_tr] the trace of the read loop, [run_tr] the
    trace of a whole call with its return code. *)

Section Traces.

Variables (src_fd dst_fd : Z) (isz osz : nat).

Inductive inner_tr (n : nat) : nat -> list event -> inner_exit -> Prop :=
| it_done p : n <= p -> inner_tr n p [] InnerDone
| it_error p k m : p < n ->
    inner_tr n p [EvDecompressStream n p osz 0 true k m] InnerGoto
| it_step p k rest ex : p < n -> inner_tr n (p + k) rest ex ->
    inner_tr n p (EvDecompressStream n p osz 0 false k 0 :: rest) ex
| it_write p k m rest ex : p < n -> 0 < m -> inner_tr n (p + k) rest ex ->
    inner_tr n p (EvDecompressStream n p osz 0 false k m
                  :: EvWrite dst_fd m (Z.of_nat m) :: rest) ex
| it_short p k m r : p < n -> 0 < m -> r <> Z.of_nat m ->
    inner_tr n p [EvDecompressStream n p osz 0 false k m; EvWrite dst_fd m r] InnerGoto.

Inductive outer_tr : list event -> outer_exit -> Prop :=
| ot_end r : (r <= 0)%Z -> outer_tr [EvRead src_fd isz r] (OuterEnd r)
| ot_chunk n s rest ex : 0 < n -> inner_tr n 0 s InnerDone -> outer_tr rest ex ->
    outer_tr (EvRead src_fd isz (Z.of_nat n) :: s ++ rest) ex
| ot_abort n s : 0 < n -> inner_tr n 0 s InnerGoto ->
    outer_tr (EvRead src_fd isz (Z.of_nat n) :: s) OuterGoto.

Definition setup_ok : list event :=
  [EvCreateDStream true; EvInitDStream false; EvMalloc InBuf isz true;
   EvMalloc OutBuf osz true].

Definition cleanup : list event :=
  [EvFree InBuf true; EvFree OutBuf true; EvFreeDStream].

Inductive run_tr : list event -> Z -> Prop :=
| rt_create_failed : run_tr [EvCreateDStream false] 1
| rt_init_failed : run_tr [EvCreateDStream true; EvInitDStream true; EvFreeDStream] 1
| rt_alloc_failed a b : a && b = false ->
    run_tr [EvCreateDStream true; EvInitDStream false; EvMalloc InBuf isz a;
            EvMalloc OutBuf osz b; EvFree InBuf a; EvFree OutBuf b; EvFreeDStream] 1
| rt_transform body ex : outer_tr body ex ->
    run_tr (setup_ok ++ body ++ cleanup) (exit_rc ex).

End Traces.

(** Classes of events. *)

Definition is_io (e : event) : bool :=
  match e with
  | EvRead _ _ _ | EvDecompressStream _ _ _ _ _ _ _ | EvWrite _ _ _ => true
  | _ => false
  end.

Definition is_write (e : event) : bool :=
  match e with EvWrite _ _ _ => true | _ => false end.

Definition is_read (e : event) : bool :=
  match e with EvRead _ _ _ => true | _ => false end.

Definition is_decompress (e : event) : bool :=
  match e with EvDecompressStream _ _ _ _ _ _ _ => true | _ => false end.

(** The failure outcomes of the calls: a NULL context or buffer, an error
    result of the codec, a negative [read], a [write] that does not accept
    all it is given. *)
Definition is_failure (e : event) : bool :=
  match e with
  | EvCreateDStream ok => negb ok
  | EvInitDStream err => err
  | EvMalloc _ _ ok => negb ok
  | EvRead _ _ r => (r <? 0)%Z
  | EvDecompressStream _ _ _ _ err _ _ => err
  | EvWrite _ c r => negb (Z.eqb r (Z.of_nat c))
  | _ => false
  end.

Definition buf_eqb (a b : buf) : bool :=
  match a, b with InBuf, InBuf | OutBuf, OutBuf => true | _, _ => false end.

Definition count_ev (f : event -> bool) (t : list event) : nat := length (filter f t).

Definition is_create_ok (e : event) : bool :=
  match e with EvCreateDStream true => true | _ => false end.

Definition is_free_dstream (e : event) : bool :=
  match e with EvFreeDStream => true | _ => false end.

(** A successful [malloc] of buffer [b], and a [free] of it that releases
    memory ([free(NULL)] releases nothing). *)
Definition is_alloc (b : buf) (e : event) : bool :=
  match e with EvMalloc b' _ true => buf_eqb b b' | _ => false end.

Definition is_release (b : buf) (e : event) : bool :=
  match e with EvFree b' true => buf_eqb b b' | _ => false end.

(** The call that follows a successful decompression step producing [m]
    bytes, once those bytes are written out in full. *)
Definition next_after (m : nat) (post : list event) : option event :=
  if Nat.eqb m 0 then hd_error post else
  match post with
  | EvWrite _ _ r :: e :: _ => if Z.eqb r (Z.of_nat m) then Some e else None
  | _ => None
  end.

(** The library's guarantee that [ZSTD_decompressStream] never advances
    [input.pos] beyond [input.size]. *)
Definition consumption_bounded {D} (zstd : api D) : Prop :=
  forall d inp room,
    match ZSTD_decompressStream zstd d inp room with
    | (_, k, _, _) => k <= length inp
    end.

Definition step_bounded (e : event) : Prop :=
  match e with EvDecompressStream n p _ _ _ k _ => p + k <= n | _ => True end.

(** What may follow a successful decompression step on the chunk of [n]
    bytes from cursor [p] that consumed [k] bytes: a new read once the
    cursor has reached the end of the chunk, or a step from the advanced
    cursor on the same chunk. *)
Definition follows_step (n p k : nat) (e : event) : Prop :=
  match e with
  | EvRead _ _ _ => n <= p + k
  | EvDecompressStream n2 p2 _ _ _ _ _ => n2 = n /\ p2 = p + k /\ p + k < n
  | _ => False
  end.

(** A decompression step handed a fresh output buffer of capacity [osz]. *)
Definition fresh_output (osz : nat) (e : event) : Prop :=
  match e with
  | EvDecompressStream _ _ os op _ _ _ => os = osz /\ op = 0
  | _ => True
  end.

(** ** libarchive's error reporting

    [archive_set_error_wrapper] forwards to libarchive's [archive_set_error],
    which formats its message with [archive_string_vsprintf] into the
    archive's error string.  libarchive is external to the repository; its
    formatter is modelled on its printf-style conversions: an optional
    length modifier ([j], [l], [z]) followed by [%], [c], [d]/[i],
    [o]/[u]/[x]/[X] or [s]; any other directive is copied literally.  A
    [char *] is the string before its terminating NUL, [None] is NULL. *)

Inductive va_arg := VaInt (z : Z) | VaStr (p : option string).

Definition digit_char (d : Z) : ascii :=
  match String.get (Z.to_nat d) "0123456789abcdef" with
  | Some c => c
  | None => "?"%char
  end.

(** [append_uint]: the digits of [u >= 0] in base [base], most significant
    first ([fuel] bounds the number of digits). *)
Fixpoint append_uint (fuel : nat) (u base : Z) : string :=
  match fuel with
  | O => EmptyString
  | S fuel' =>
    (if (u >=? base)%Z then append_uint fuel' (u / base) base else EmptyString)
      ++ String (digit_char (u mod base)) EmptyString
  end.

Definition uint_digits (u base : Z) : string :=
  append_uint (S (Z.to_nat (Z.log2 u))) u base.

Definition append_int (s base : Z) : string :=
  if (s <? 0)%Z then String "-" (uint_digits (- s) base) else uint_digits s base.

Definition is_length_flag (c : ascii) : bool :=
  match c with "j"%char | "l"%char | "z"%char => true | _ => false end.

(** One conversion directive [c] against the remaining arguments: its
    output and the arguments left, [None] for a directive that falls to
    the literal copy, [Some None] for a [va_arg] with no matching argument
    (undefined behaviour in C). *)
Definition conversion (c : ascii) (ap : list va_arg)
  : option (option (string * list va_arg)) :=
  match c, ap with
  | "%"%char, _ => Some (Some (String "%" EmptyString, ap))
  | "c"%char, VaInt z :: ap' =>
      Some (Some (String (ascii_of_nat (Z.to_nat (z mod 256))) EmptyString, ap'))
  | ("d" | "i")%char, VaInt z :: ap' => Some (Some (append_int z 10, ap'))
  | "o"%char, VaInt z :: ap' => Some (Some (uint_digits (Z.abs z) 8, ap'))
  | "u"%char, VaInt z :: ap' => Some (Some (uint_digits (Z.abs z) 10, ap'))
  | ("x" | "X")%char, VaInt z :: ap' => Some (Some (uint_digits (Z.abs z) 16, ap'))
  | "s"%char, VaStr p :: ap' =>
      Some (Some (match p with Some s => s | None => "(null)"%string end, ap'))
  | ("c" | "d" | "i" | "o" | "u" | "x" | "X" | "s")%char, _ => Some None
  | _, _ => None
  end.

(** [archive_string_vsprintf(as, fmt, ap)] on an empty [as]; [None] when
    the call has undefined behaviour. *)
Fixpoint archive_string_vsprintf (fmt : string) (ap : list va_arg)
  : option string :=
  match fmt with
  | EmptyString => Some EmptyString
  | String c rest =>
    if negb (Ascii.eqb c "%") then
      option_map (String c) (archive_string_vsprintf rest ap)
    else
    let literal := option_map (String "%") (archive_string_vsprintf rest ap) in
    let continue_with conv rest' :=
      match conv with
      | None => literal
      | Some None => None
      | Some (Some (o, ap')) =>
          option_map (String.append o) (archive_string_vsprintf rest' ap')
      end in
    match rest with
    | EmptyString => literal
    | String f rest1 =>
      if is_length_flag f then
        match rest1 with
        | EmptyString => literal
        | String c2 rest2 => continue_with (conversion c2 ap) rest2
        end
      else continue_with (conversion f ap) rest1
    end
  end.

(** The part of [struct archive] that [archive_set_error] touches. *)
Record archive := mkArchive {
  archive_error_number : Z;
  error : option string;
  error_string : string
}.

(** [archive_set_error(a, error_number, fmt, ...)]: [None] when formatting
    has undefined behaviour. *)
Definition archive_set_error (a : archive) (error_number : Z)
    (fmt : option string) (ap : list va_arg) : option archive :=
  match fmt with
  | None => Some (mkArchive error_number None (error_string a))
  | Some f =>
    match archive_string_vsprintf f ap with
    | Some s => Some (mkArchive error_number (Some s) s)
    | None => None
    end
  end.

Definition archive_set_error_wrapper (a : archive) (error_number : Z)
    (error_string : option string) : option archive :=
  archive_set_error a error_number (Some "%s"%string) [VaStr error_string].

(** The arguments of the I/O calls: reads on the source descriptor for
    [in_size] bytes, writes on the destination descriptor of at least one
    byte, decompression steps on a cursor inside the chunk. *)
Definition call_ok (src_fd dst_fd : Z) (isz : nat) (e : event) : Prop :=
  match e with
  | EvRead fd c _ => fd = src_fd /\ c = isz
  | EvWrite fd c _ => fd = dst_fd /\ 0 < c
  | EvDecompressStream n p _ _ _ _ _ => p < n
  | _ => True
  end.


(** The number of bytes the decompression steps of a trace produce. *)
Definition produced (t : list event) : nat :=
  fold_right (fun e n => match e with
                         | EvDecompressStream _ _ _ _ _ _ m => m + n
                         | _ => n end) 0 t.


(** The library's guarantee that [ZSTD_decompressStream] never advances
    [output.pos] beyond [output.size]. *)
Definition production_bounded {D} (zstd : api D) : Prop :=
  forall d inp room,
    match ZSTD_decompressStream zstd d inp room with
    | (_, _, o, _) => length o <= room
    end.

(** The value [read] returns once the pieces of data are used up: 0 at
    end of file, -1 on an error. *)
Definition end_code (ending : list read_resp) : Z :=
  match ending with [] => 0 | _ => -1 end.

(** Steps and writes that stay within an output buffer of [osz] bytes. *)
Definition within_out (osz : nat) (e : event) : Prop :=
  match e with
  | EvDecompressStream _ _ _ _ _ _ m => m <= osz
  | EvWrite _ c _ => c <= osz
  | _ => True
  end.

(** ** Sample runs

    Concrete worlds on which the transform is run with [RawCodec]. *)

(** The stream [RawCodec.compress [x0a; x14; x1e]], delivered in two
    pieces; output buffer of one byte, so that a chunk takes several
    steps. *)
Definition ok_world : world := world_of [RdData [x03; x0a]; RdData [x14; x1e]].

Definition final_world (r : option (Z * world)) (w : world) : world :=
  match r with Some (_, w') => w' | None => w end.

Definition ok_final : world :=
  Eval vm_compute in final_world (zstd_decompress_fd (RawCodec.lib 4 1) 20 3 4 ok_world) ok_world.

(** The destination accepts one byte of the first write. *)
Definition short_world : world := mkWorld [] [RdData [x02; x0a; x14]] [WrShort 1] [] [].

Definition short_final : world :=
  Eval vm_compute in
    final_world (zstd_decompress_fd (RawCodec.lib 4 4) 10 3 4 short_world) short_world.

(** The first write fails. *)
Definition werr_world : world := mkWorld [] [RdData [x02; x0a; x14]] [WrError] [] [].

Definition werr_final : world :=
  Eval vm_compute in
    final_world (zstd_decompress_fd (RawCodec.lib 4 4) 10 3 4 werr_world) werr_world.

(** The allocation of the output buffer fails. *)
Definition nomem_world : world := mkWorld [true; false] [RdData [x02; x0a; x14]] [] [] [].

Definition nomem_final : world :=
  Eval vm_compute in
    final_world (zstd_decompress_fd (RawCodec.lib 4 4) 10 3 4 nomem_world) nomem_world.

(** An empty source. *)
Definition empty_world : world := world_of [].

Definition empty_final : world :=
  Eval vm_compute in
    final_world (zstd_decompress_fd (RawCodec.lib 4 4) 10 3 4 empty_world) empty_world.

(** The first piece of [RawCodec.compress [x0a; x14; x1e]], then a failing
    read. *)
Definition rderr_world : world := world_of [RdData [x03; x0a]; RdError].

(** The first piece of [RawCodec.compress [x0a; x14; x1e]], then end of
    file. *)
Definition cut_world : world := world_of [RdData [x03; x0a]].

Definition rderr_final : world :=
  Eval vm_compute in
    final_world (zstd_decompress_fd (RawCodec.lib 4 1) 10 3 4 rderr_world) rderr_world.

Ltac split_nil_app :=
  match goal with
  | H : ?pre ++ _ :: _ = _ |- _ =>
      destruct pre as [|? [|? [|? pre]]]; simpl in H; inversion H; subst
  | H : _ = ?pre ++ _ :: _ |- _ =>
      destruct pre as [|? [|? [|? pre]]]; simpl in H; inversion H; subst
  end.

(** ** Lemmas *)

Lemma app_cons_split {A} (s rest pre post : list A) (x : A) :
  s ++ rest = pre ++ x :: post ->
  (exists b, s = pre ++ x :: b /\ post = b ++ rest) \/
  (exists a, rest = a ++ x :: post /\ pre = s ++ a).
Proof.
  revert pre. induction s as [|y s IH]; intros pre H.
  - right. exists pre. auto.
  - destruct pre as [|z pre]; simpl in H; inversion H; subst.
    + left. exists s. auto.
    + destruct (IH pre H2) as [[b [-> ->]]|[a [-> ->]]].
      * left. exists b. auto.
      * right. exists a. auto.
Qed.

Section Characterisation.

Context {D : Type} (zstd : api D).

Lemma inner_loop_trace fuel dst d in_buf n p w ex d' w' :
  inner_loop zstd fuel dst d in_buf (mkIn n p) w = Some ((ex, d'), w') ->
  exists s, w_trace w' = w_trace w ++ s /\
            inner_tr dst (ZSTD_DStreamOutSize zstd) n p s ex.
Proof.
  revert d p w. induction fuel as [|fuel IH]; intros d p w H; [discriminate|].
  simpl in H. destruct (Nat.ltb_spec p n) as [Hlt|Hge].
  - unfold bind, decompressStream in H. simpl in H.
    destruct (ZSTD_decompressStream zstd d (skipn p (firstn n in_buf))
                (ZSTD_DStreamOutSize zstd - 0)) as [[[res k] o] d1] eqn:Hd.
    rewrite Nat.sub_0_r in *. cbn [out_pos out_size in_pos in_size] in H.
    destruct (ZSTD_isError res) eqn:He.
    + inversion H; subst. eexists. split; [reflexivity|]. now constructor.
    + destruct (Nat.ltb_spec 0 (length o)) as [Hm|Hm].
      * unfold write in H. rewrite firstn_all in H.
        destruct (write_script o _) as [[r acc] dst'] eqn:Hw. simpl in H.
        destruct (Z.eqb_spec r (Z.of_nat (length o))) as [Hr|Hr]; simpl in H.
        -- apply IH in H. destruct H as [s [Ht Hs]]. simpl in Ht.
           exists (EvDecompressStream n p (ZSTD_DStreamOutSize zstd) 0 false k (length o)
                   :: EvWrite dst (length o) r :: s).
           split; [rewrite Ht, <- !app_assoc; reflexivity|]. subst r.
           now apply it_write.
        -- inversion H; subst. simpl.
           eexists. split; [rewrite <- app_assoc; reflexivity|].
           now apply it_short.
      * apply IH in H. destruct H as [s [Ht Hs]]. simpl in Ht.
        assert (length o = 0) as Ho by lia.
        exists (EvDecompressStream n p (ZSTD_DStreamOutSize zstd) 0 false k (length o) :: s).
        split; [rewrite Ht, <- !app_assoc; reflexivity|]. rewrite Ho in *.
        now apply it_step.
  - inversion H; subst. exists []. split; [now rewrite app_nil_r|]. now constructor.
Qed.

Lemma read_loop_trace fuel src dst d w ex d' w' :
  read_loop zstd fuel src dst d w = Some ((ex, d'), w') ->
  exists s, w_trace w' = w_trace w ++ s /\
            outer_tr src dst (ZSTD_DStreamInSize zstd) (ZSTD_DStreamOutSize zstd) s ex.
Proof.
  revert d w. induction fuel as [|fuel IH]; intros d w H; [discriminate|].
  simpl in H. unfold bind, read in H.
  destruct (read_script (ZSTD_DStreamInSize zstd) (w_src w)) as [[r got] src'] eqn:Hr.
  simpl in H. destruct (Z.ltb_spec 0 r) as [Hpos|Hnpos].
  - destruct (inner_loop zstd fuel dst d got (mkIn (Z.to_nat r) 0) _)
      as [[[ex1 d1] w1]|] eqn:Hi; [|discriminate].
    apply inner_loop_trace in Hi. destruct Hi as [s1 [Ht1 Hs1]]. simpl in Ht1.
    assert (Hr' : r = Z.of_nat (Z.to_nat r)) by lia.
    destruct ex1.
    + apply IH in H. destruct H as [s2 [Ht2 Hs2]].
      exists (EvRead src (ZSTD_DStreamInSize zstd) r :: s1 ++ s2).
      split; [rewrite Ht2, Ht1, <- !app_assoc; reflexivity|].
      rewrite Hr'. apply ot_chunk; [lia|assumption|assumption].
    + inversion H; subst.
      exists (EvRead src (ZSTD_DStreamInSize zstd) r :: s1).
      split; [rewrite Ht1, <- !app_assoc; reflexivity|].
      rewrite Hr'. apply ot_abort; [lia|assumption].
  - inversion H; subst. eexists. split; [reflexivity|]. constructor. lia.
Qed.

Lemma run_trace fuel src dst w rc w' :
  zstd_decompress_fd zstd fuel src dst w = Some (rc, w') ->
  exists t, w_trace w' = w_trace w ++ t /\
            run_tr src dst (ZSTD_DStreamInSize zstd) (ZSTD_DStreamOutSize zstd) t rc.
Proof.
  intros H. unfold zstd_decompress_fd, bind, createDStream in H.
  destruct (ZSTD_createDStream zstd) as [d|]; simpl in H.
  2:{ inversion H; subst. eexists. split; [reflexivity|]. constructor. }
  unfold initDStream in H. destruct (ZSTD_initDStream zstd d) as [r d1]. simpl in H.
  destruct (ZSTD_isError r) eqn:He; simpl in H.
  { inversion H; subst. eexists. split; [simpl; rewrite <- !app_assoc; reflexivity|].
    constructor. }
  set (a := match w_malloc w with [] => true | x :: _ => x end) in H.
  set (b := match tl (w_malloc w) with [] => true | x :: _ => x end) in H.
  clearbody a b.
  destruct (negb a || negb b) eqn:Hab.
  - inversion H; subst. eexists. split; [simpl; rewrite <- !app_assoc; reflexivity|].
    constructor. destruct a, b; simpl in *; congruence.
  - assert (a = true /\ b = true) as [-> ->]
      by (destruct a, b; simpl in *; intuition congruence).
    destruct (read_loop zstd fuel src dst d1 _) as [[[ex d2] w2]|] eqn:Hl;
      [|discriminate].
    apply read_loop_trace in Hl. destruct Hl as [s [Ht Hs]]. simpl in Ht.
    inversion H; subst. exists (setup_ok (ZSTD_DStreamInSize zstd)
                                 (ZSTD_DStreamOutSize zstd) ++ s ++ cleanup).
    split; [simpl; rewrite Ht, <- !app_assoc; reflexivity|].
    now constructor.
Qed.

Lemma read_script_length count src r got src' :
  read_script count src = (r, got, src') -> (0 < r)%Z -> Z.to_nat r = length got.
Proof.
  destruct src as [|[bs|] rest]; simpl; intros H; inversion H; subst; intros; lia.
Qed.

Section Bounded.

Hypothesis Hbound : consumption_bounded zstd.

Lemma inner_loop_bounded fuel dst d in_buf n p w ex d' w' :
  n = length in_buf ->
  inner_loop zstd fuel dst d in_buf (mkIn n p) w = Some ((ex, d'), w') ->
  exists s, w_trace w' = w_trace w ++ s /\ Forall step_bounded s.
Proof.
  intros Hn. revert d p w. induction fuel as [|fuel IH]; intros d p w H; [discriminate|].
  simpl in H. destruct (Nat.ltb_spec p n) as [Hlt|Hge].
  - unfold bind, decompressStream in H. simpl in H.
    pose proof (Hbound d (skipn p (firstn n in_buf)) (ZSTD_DStreamOutSize zstd - 0)) as Hk.
    destruct (ZSTD_decompressStream zstd d (skipn p (firstn n in_buf))
                (ZSTD_DStreamOutSize zstd - 0)) as [[[res k] o] d1] eqn:Hd.
    rewrite length_skipn, length_firstn, <- Hn, Nat.min_id in Hk.
    assert (Hev : step_bounded (EvDecompressStream n p (ZSTD_DStreamOutSize zstd) 0
                                  (ZSTD_isError res) k (length o))) by (simpl; lia).
    rewrite Nat.sub_0_r in *. cbn [out_pos out_size in_pos in_size] in H.
    destruct (ZSTD_isError res) eqn:He.
    + inversion H; subst. eexists. split; [reflexivity|]. now repeat constructor.
    + destruct (Nat.ltb_spec 0 (length o)) as [Hm|Hm].
      * unfold write in H. rewrite firstn_all in H.
        destruct (write_script o _) as [[r acc] dst'] eqn:Hw. simpl in H.
        destruct (Z.eqb r (Z.of_nat (length o))); simpl in H.
        -- apply IH in H. destruct H as [s [Ht Hs]]. simpl in Ht.
           eexists. split; [rewrite Ht, <- !app_assoc; reflexivity|].
           constructor; [exact Hev|]. constructor; [exact I|exact Hs].
        -- inversion H; subst. eexists.
           split; [simpl; rewrite <- app_assoc; reflexivity|].
           repeat constructor. exact Hev.
      * apply IH in H. destruct H as [s [Ht Hs]]. simpl in Ht.
        eexists. split; [rewrite Ht, <- !app_assoc; reflexivity|].
        constructor; [exact Hev|exact Hs].
  - inversion H; subst. exists []. split; [now rewrite app_nil_r|]. constructor.
Qed.

Lemma read_loop_bounded fuel src dst d w ex d' w' :
  read_loop zstd fuel src dst d w = Some ((ex, d'), w') ->
  exists s, w_trace w' = w_trace w ++ s /\ Forall step_bounded s.
Proof.
  revert d w. induction fuel as [|fuel IH]; intros d w H; [discriminate|].
  simpl in H. unfold bind, read in H.
  destruct (read_script (ZSTD_DStreamInSize zstd) (w_src w)) as [[r got] src'] eqn:Hr.
  simpl in H. destruct (Z.ltb_spec 0 r) as [Hpos|Hnpos].
  - destruct (inner_loop zstd fuel dst d got (mkIn (Z.to_nat r) 0) _)
      as [[[ex1 d1] w1]|] eqn:Hi; [|discriminate].
    apply inner_loop_bounded in Hi; [|exact (read_script_length _ _ _ _ _ Hr Hpos)].
    destruct Hi as [s1 [Ht1 Hs1]]. simpl in Ht1.
    destruct ex1.
    + apply IH in H. destruct H as [s2 [Ht2 Hs2]].
      exists (EvRead src (ZSTD_DStreamInSize zstd) r :: s1 ++ s2).
      split; [rewrite Ht2, Ht1, <- !app_assoc; reflexivity|].
      constructor; [exact I|]. apply Forall_app. auto.
    + inversion H; subst.
      exists (EvRead src (ZSTD_DStreamInSize zstd) r :: s1).
      split; [rewrite Ht1, <- !app_assoc; reflexivity|].
      constructor; [exact I|exact Hs1].
  - inversion H; subst. eexists. split; [reflexivity|]. repeat constructor.
Qed.

Lemma run_bounded fuel src dst w rc w' :
  zstd_decompress_fd zstd fuel src dst w = Some (rc, w') ->
  exists t, w_trace w' = w_trace w ++ t /\ Forall step_bounded t.
Proof.
  intros H. unfold zstd_decompress_fd, bind, createDStream in H.
  destruct (ZSTD_createDStream zstd) as [d|]; simpl in H.
  2:{ inversion H; subst. eexists. split; [reflexivity|]. repeat constructor. }
  unfold initDStream in H. destruct (ZSTD_initDStream zstd d) as [r d1]. simpl in H.
  destruct (ZSTD_isError r) eqn:He; simpl in H.
  { inversion H; subst. eexists. split; [simpl; rewrite <- !app_assoc; reflexivity|].
    repeat constructor. }
  set (a := match w_malloc w with [] => true | x :: _ => x end) in H.
  set (b := match tl (w_malloc w) with [] => true | x :: _ => x end) in H.
  clearbody a b.
  destruct (negb a || negb b) eqn:Hab.
  - inversion H; subst. eexists. split; [simpl; rewrite <- !app_assoc; reflexivity|].
    repeat constructor.
  - destruct (read_loop zstd fuel src dst d1 _) as [[[ex d2] w2]|] eqn:Hl;
      [|discriminate].
    apply read_loop_bounded in Hl. destruct Hl as [s [Ht Hs]]. simpl in Ht.
    inversion H; subst.
    exists ([EvCreateDStream true; EvInitDStream false; EvMalloc InBuf (ZSTD_DStreamInSize zstd) a;
             EvMalloc OutBuf (ZSTD_DStreamOutSize zstd) b] ++ s ++
            [EvFree InBuf a; EvFree OutBuf b; EvFreeDStream]).
    split; [simpl; rewrite Ht, <- !app_assoc; reflexivity|].
    apply Forall_app. split; [repeat constructor|].
    apply Forall_app. split; [exact Hs|repeat constructor].
Qed.

End Bounded.

Lemma run_out_setup fuel src dst w rc w' :
  zstd_decompress_fd zstd fuel src dst w = Some (rc, w') ->
  w_out w' = w_out w \/
  exists s, w_trace w' = w_trace w ++
              setup_ok (ZSTD_DStreamInSize zstd) (ZSTD_DStreamOutSize zstd) ++ s.
Proof.
  intros H. unfold zstd_decompress_fd, bind, createDStream in H.
  destruct (ZSTD_createDStream zstd) as [d|]; simpl in H.
  2:{ inversion H; subst. left. reflexivity. }
  unfold initDStream in H. destruct (ZSTD_initDStream zstd d) as [r d1]. simpl in H.
  destruct (ZSTD_isError r) eqn:He; simpl in H.
  { inversion H; subst. left. reflexivity. }
  set (a := match w_malloc w with [] => true | x :: _ => x end) in H.
  set (b := match tl (w_malloc w) with [] => true | x :: _ => x end) in H.
  clearbody a b.
  destruct (negb a || negb b) eqn:Hab.
  - inversion H; subst. left. reflexivity.
  - assert (a = true /\ b = true) as [-> ->]
      by (destruct a, b; simpl in *; intuition congruence).
    destruct (read_loop zstd fuel src dst d1 _) as [[[ex d2] w2]|] eqn:Hl;
      [|discriminate].
    apply read_loop_trace in Hl. destruct Hl as [s [Ht Hs]]. simpl in Ht.
    inversion H; subst. right. exists (s ++ cleanup).
    simpl. rewrite Ht, <- !app_assoc. reflexivity.
Qed.

Lemma run_tr_of fuel src dst w rc w' t :
  zstd_decompress_fd zstd fuel src dst w = Some (rc, w') ->
  w_trace w' = w_trace w ++ t ->
  run_tr src dst (ZSTD_DStreamInSize zstd) (ZSTD_DStreamOutSize zstd) t rc.
Proof.
  intros H Ht. destruct (run_trace _ _ _ _ _ _ H) as [t' [Ht' Hr]].
  rewrite Ht in Ht'. apply app_inv_head in Ht'. now subst.
Qed.

End Characterisation.

(** ** Facts about the shape of traces *)

(** An event found in a list whose events all fail [f] does not pass [f]. *)
Lemma elt_not_in {l pre post : list event} {x : event} (f : event -> bool) :
  l = pre ++ x :: post -> forallb (fun e => negb (f e)) l = true -> f x = false.
Proof.
  intros -> H. rewrite forallb_app in H. simpl in H.
  apply andb_true_iff in H as [_ H]. apply andb_true_iff in H as [H _].
  now apply negb_true_iff.
Qed.

Section Shapes.

Variables (src_fd dst_fd : Z) (isz osz : nat).

Lemma inner_tr_io n p s ex :
  inner_tr dst_fd osz n p s ex -> forallb is_io s = true.
Proof. induction 1; simpl; auto. Qed.

Lemma outer_tr_io s ex :
  outer_tr src_fd dst_fd isz osz s ex -> forallb is_io s = true.
Proof.
  induction 1; simpl; auto.
  - rewrite forallb_app, IHouter_tr, (inner_tr_io _ _ _ _ H0). reflexivity.
  - exact (inner_tr_io _ _ _ _ H0).
Qed.

Lemma inner_tr_no_read n p s ex :
  inner_tr dst_fd osz n p s ex -> forallb (fun e => negb (is_read e)) s = true.
Proof. induction 1; simpl; auto. Qed.

Lemma inner_short_last n p s ex pre post fd m r :
  inner_tr dst_fd osz n p s ex -> s = pre ++ EvWrite fd m r :: post ->
  r <> Z.of_nat m -> post = [] /\ ex = InnerGoto.
Proof.
  intros Hs. revert pre. induction Hs; intros pre Heq Hr.
  - destruct pre; discriminate.
  - split_nil_app.
  - destruct pre as [|? pre]; simpl in Heq; inversion Heq; subst. eauto.
  - destruct pre as [|? [|? pre]]; simpl in Heq; inversion Heq; subst.
    + congruence.
    + eauto.
  - split_nil_app. auto.
Qed.

Lemma outer_short_last s ex pre post fd m r :
  outer_tr src_fd dst_fd isz osz s ex -> s = pre ++ EvWrite fd m r :: post ->
  r <> Z.of_nat m -> post = [] /\ ex = OuterGoto.
Proof.
  intros Hs. revert pre. induction Hs; intros pre Heq Hr.
  - split_nil_app.
  - destruct pre as [|e0 pre]; [discriminate|]. simpl in Heq.
    injection Heq as _ Heq.
    destruct (app_cons_split _ _ _ _ _ Heq) as [[b [Hs' _]]|[a [Hrest _]]].
    + destruct (inner_short_last _ _ _ _ _ _ _ _ _ H0 Hs' Hr). discriminate.
    + eauto.
  - destruct pre as [|e0 pre]; [discriminate|]. simpl in Heq.
    injection Heq as _ Heq.
    destruct (inner_short_last _ _ _ _ _ _ _ _ _ H0 Heq Hr). auto.
Qed.

Lemma run_short_write t rc pre post fd m r :
  run_tr src_fd dst_fd isz osz t rc -> t = pre ++ EvWrite fd m r :: post ->
  r <> Z.of_nat m -> rc = 1%Z /\ post = cleanup.
Proof.
  intros Ht Heq Hr. destruct Ht.
  - split_nil_app.
  - pose proof (elt_not_in is_write Heq eq_refl). discriminate.
  - pose proof (elt_not_in is_write Heq eq_refl). discriminate.
  - destruct (app_cons_split _ _ _ _ _ Heq) as [[b [Hs _]]|[a [Hb Hpre]]].
    + pose proof (elt_not_in is_write Hs eq_refl). discriminate.
    + destruct (app_cons_split _ _ _ _ _ Hb) as [[b [Hs Hpost]]|[a' [Hc _]]].
      * destruct (outer_short_last _ _ _ _ _ _ _ H Hs Hr) as [-> ->]. auto.
      * pose proof (elt_not_in is_write Hc eq_refl). discriminate.
Qed.

Lemma inner_head n p s ex :
  inner_tr dst_fd osz n p s ex ->
  (s = [] /\ n <= p /\ ex = InnerDone) \/
  (p < n /\ exists err k m s', s = EvDecompressStream n p osz 0 err k m :: s').
Proof. destruct 1; eauto 10. Qed.

Lemma outer_head s ex :
  outer_tr src_fd dst_fd isz osz s ex -> exists r s', s = EvRead src_fd isz r :: s'.
Proof. destruct 1; eauto. Qed.

Lemma outer_read s ex pre post fd c r :
  outer_tr src_fd dst_fd isz osz s ex -> s = pre ++ EvRead fd c r :: post ->
  ((r <= 0)%Z -> post = [] /\ ex = OuterEnd r) /\
  ((0 < r)%Z -> exists err k m post',
      post = EvDecompressStream (Z.to_nat r) 0 osz 0 err k m :: post').
Proof.
  intros Hs. revert pre. induction Hs; intros pre Heq.
  - destruct pre as [|e0 pre]; simpl in Heq; inversion Heq; subst.
    + split; [auto|intros; exfalso; lia].
    + destruct pre; discriminate.
  - destruct pre as [|e0 pre]; simpl in Heq; injection Heq as He Heq.
    + inversion He; subst. split; [intros; exfalso; lia|]. intros _. rewrite Nat2Z.id.
      destruct (inner_head _ _ _ _ H0) as [[_ [Hn _]]|[_ (err & k & m & s' & ->)]];
        [exfalso; lia|]. simpl; eauto.
    + destruct (app_cons_split _ _ _ _ _ Heq) as [[b [Hs' _]]|[a [Hr _]]].
      * pose proof (elt_not_in is_read Hs' (inner_tr_no_read _ _ _ _ H0)).
        discriminate.
      * eauto.
  - destruct pre as [|e0 pre]; simpl in Heq; injection Heq as He Heq.
    + inversion He; subst. split; [intros; exfalso; lia|]. intros _. rewrite Nat2Z.id.
      destruct (inner_head _ _ _ _ H0) as [[_ [Hn _]]|[_ (err & k & m & s' & ->)]];
        [exfalso; lia|]. simpl; eauto.
    + pose proof (elt_not_in is_read Heq (inner_tr_no_read _ _ _ _ H0)).
      discriminate.
Qed.

Lemma outer_end_last s r :
  outer_tr src_fd dst_fd isz osz s (OuterEnd r) ->
  (r <= 0)%Z /\ exists pre, s = pre ++ [EvRead src_fd isz r].
Proof.
  intros Hs. remember (OuterEnd r) as ex eqn:Hex. revert r Hex.
  induction Hs; intros r' Hex; try discriminate.
  - inversion Hex; subst. split; [assumption|]. exists []. reflexivity.
  - destruct (IHHs r' Hex) as [Hr [pre ->]]. split; [assumption|].
    exists (EvRead src_fd isz (Z.of_nat n) :: s ++ pre).
    simpl. now rewrite <- app_assoc.
Qed.

Lemma run_read t rc pre post fd c r :
  run_tr src_fd dst_fd isz osz t rc -> t = pre ++ EvRead fd c r :: post ->
  ((r <= 0)%Z -> post = cleanup /\ rc = (if (r <? 0)%Z then 1 else 0)%Z) /\
  ((0 < r)%Z -> exists err k m post',
      post = EvDecompressStream (Z.to_nat r) 0 osz 0 err k m :: post').
Proof.
  intros Ht Heq. destruct Ht.
  - split_nil_app.
  - pose proof (elt_not_in is_read Heq eq_refl). discriminate.
  - pose proof (elt_not_in is_read Heq eq_refl). discriminate.
  - destruct (app_cons_split _ _ _ _ _ Heq) as [[b [Hs _]]|[a [Hb Hpre]]].
    + pose proof (elt_not_in is_read Hs eq_refl). discriminate.
    + destruct (app_cons_split _ _ _ _ _ Hb) as [[b [Hs Hpost]]|[a' [Hc _]]].
      * destruct (outer_read _ _ _ _ _ _ _ H Hs) as [H1 H2]. subst post. split.
        -- intros Hr. destruct (H1 Hr) as [-> ->]. simpl; auto.
        -- intros Hr. destruct (H2 Hr) as (err & k & m & post' & ->). simpl; eauto.
      * pose proof (elt_not_in is_read Hc eq_refl). discriminate.
Qed.

Lemma run_success_last_read t rc :
  run_tr src_fd dst_fd isz osz t rc -> rc = 0%Z ->
  exists pre, t = pre ++ EvRead src_fd isz 0 :: cleanup.
Proof.
  destruct 1; intros Hrc; try discriminate.
  destruct ex as [r|]; [|discriminate]. simpl in Hrc.
  destruct (outer_end_last _ _ H) as [Hr [pre ->]].
  destruct (Z.ltb_spec r 0); [discriminate|].
  assert (r = 0%Z) as -> by lia.
  exists (setup_ok isz osz ++ pre). now rewrite <- !app_assoc.
Qed.

Lemma inner_failure n p s ex :
  inner_tr dst_fd osz n p s ex ->
  existsb is_failure s = match ex with InnerDone => false | InnerGoto => true end.
Proof.
  induction 1; simpl; auto.
  - rewrite Z.eqb_refl. exact IHinner_tr.
  - rewrite orb_false_r. apply Z.eqb_neq in H1. now rewrite H1.
Qed.

Lemma outer_failure s ex :
  outer_tr src_fd dst_fd isz osz s ex ->
  existsb is_failure s = negb (Z.eqb (exit_rc ex) 0) /\
  (exit_rc ex = 0 \/ exit_rc ex = 1)%Z.
Proof.
  induction 1; simpl.
  - destruct (Z.ltb r 0); simpl; auto.
  - rewrite existsb_app, (inner_failure _ _ _ _ H0).
    destruct (Z.ltb_spec (Z.of_nat n) 0); [lia|]. simpl. exact IHouter_tr.
  - rewrite (inner_failure _ _ _ _ H0). destruct (Z.ltb (Z.of_nat n) 0); auto.
Qed.

Lemma run_failure t rc :
  run_tr src_fd dst_fd isz osz t rc ->
  existsb is_failure t = negb (Z.eqb rc 0) /\ (rc = 0 \/ rc = 1)%Z.
Proof.
  destruct 1; simpl; auto.
  - destruct a, b; simpl in *; auto; discriminate.
  - rewrite existsb_app. destruct (outer_failure _ _ H) as [H1 H2].
    simpl. rewrite H1. destruct (exit_rc ex =? 0)%Z; simpl; auto.
Qed.

Lemma count_ev_app f a b : count_ev f (a ++ b) = count_ev f a + count_ev f b.
Proof. unfold count_ev. now rewrite filter_app, length_app. Qed.

Lemma count_ev_io f s :
  (forall e, is_io e = true -> f e = false) -> forallb is_io s = true -> count_ev f s = 0.
Proof.
  intros Hf. induction s as [|e s IH]; simpl; intros H; auto.
  apply andb_true_iff in H as [He Hs]. unfold count_ev in *. simpl.
  rewrite (Hf e He). auto.
Qed.

Lemma run_counts t rc :
  run_tr src_fd dst_fd isz osz t rc ->
  count_ev is_create_ok t = count_ev is_free_dstream t /\
  count_ev is_free_dstream t <= 1 /\
  (count_ev is_create_ok t = 1 -> exists mid, t = EvCreateDStream true :: mid ++ [EvFreeDStream]) /\
  (forall b, count_ev (is_alloc b) t = count_ev (is_release b) t /\
             count_ev (is_alloc b) t <= 1).
Proof.
  destruct 1; [unfold count_ev..|].
  - split; [reflexivity|]. split; [simpl; lia|]. split; [simpl; intros H; discriminate H|].
    intros []; simpl; lia.
  - split; [reflexivity|]. split; [simpl; lia|]. split.
    + intros _. exists [EvInitDStream true]. reflexivity.
    + intros []; simpl; lia.
  - split; [reflexivity|]. split; [simpl; lia|]. split.
    + intros _. exists [EvInitDStream false; EvMalloc InBuf isz a;
        EvMalloc OutBuf osz b; EvFree InBuf a; EvFree OutBuf b]. reflexivity.
    + intros []; destruct a, b; simpl; lia.
  - pose proof (outer_tr_io _ _ H) as Hio.
    assert (Hz : forall f, (forall e, is_io e = true -> f e = false) ->
                 count_ev f (setup_ok isz osz ++ body ++ cleanup)
                 = count_ev f (setup_ok isz osz) + count_ev f cleanup).
    { intros f Hf. rewrite !count_ev_app, (count_ev_io f body Hf Hio). lia. }
    rewrite !Hz by (intros [] ?; simpl in *; congruence).
    split; [reflexivity|]. split; [unfold count_ev; simpl; lia|]. split.
    + intros _.
      exists (tl (setup_ok isz osz) ++ body ++ [EvFree InBuf true; EvFree OutBuf true]).
      simpl. now rewrite <- !app_assoc.
    + intros b. rewrite !Hz by (destruct b; intros [] ?; simpl in *; try destruct ok; congruence).
      destruct b; unfold count_ev; simpl; lia.
Qed.

(** Every decompression step gets a fresh output buffer. *)
Lemma inner_fresh n p s ex :
  inner_tr dst_fd osz n p s ex -> Forall (fresh_output osz) s.
Proof. induction 1; repeat constructor; auto. Qed.

Lemma outer_fresh s ex :
  outer_tr src_fd dst_fd isz osz s ex -> Forall (fresh_output osz) s.
Proof.
  induction 1.
  - repeat constructor.
  - constructor; [exact I|]. apply Forall_app. split; [exact (inner_fresh _ _ _ _ H0)|assumption].
  - constructor; [exact I|]. exact (inner_fresh _ _ _ _ H0).
Qed.

Lemma run_fresh t rc :
  run_tr src_fd dst_fd isz osz t rc -> Forall (fresh_output osz) t.
Proof.
  destruct 1; try solve [repeat constructor].
  apply Forall_app. split; [repeat constructor|].
  apply Forall_app. split; [exact (outer_fresh _ _ H)|repeat constructor].
Qed.

(** Output produced by a step is written before anything else happens. *)
Lemma inner_flush n p s ex pre post n' p' os op k m :
  inner_tr dst_fd osz n p s ex ->
  s = pre ++ EvDecompressStream n' p' os op false k m :: post -> 0 < m ->
  exists r post', post = EvWrite dst_fd m r :: post'.
Proof.
  intros Hs. revert pre. induction Hs; intros pre Heq Hm.
  - destruct pre; discriminate.
  - split_nil_app.
  - destruct pre as [|e0 pre]; simpl in Heq; injection Heq as He Heq.
    + inversion He; subst. lia.
    + eauto.
  - destruct pre as [|e0 [|e1 pre]]; simpl in Heq.
    + inversion Heq; subst. eauto.
    + inversion Heq.
    + injection Heq as _ _ Heq. eauto.
  - split_nil_app. eauto.
Qed.

Lemma outer_flush s ex pre post n' p' os op k m :
  outer_tr src_fd dst_fd isz osz s ex ->
  s = pre ++ EvDecompressStream n' p' os op false k m :: post -> 0 < m ->
  exists r post', post = EvWrite dst_fd m r :: post'.
Proof.
  intros Hs. revert pre. induction Hs; intros pre Heq Hm.
  - split_nil_app.
  - destruct pre as [|e0 pre]; [discriminate|]. simpl in Heq. injection Heq as _ Heq.
    destruct (app_cons_split _ _ _ _ _ Heq) as [[b [Hs' ->]]|[a [Hr _]]].
    + destruct (inner_flush _ _ _ _ _ _ _ _ _ _ _ _ H0 Hs' Hm) as (r & post' & ->).
      simpl; eauto.
    + eauto.
  - destruct pre as [|e0 pre]; [discriminate|]. simpl in Heq. injection Heq as _ Heq.
    exact (inner_flush _ _ _ _ _ _ _ _ _ _ _ _ H0 Heq Hm).
Qed.

Lemma run_flush t rc pre post n' p' os op k m :
  run_tr src_fd dst_fd isz osz t rc ->
  t = pre ++ EvDecompressStream n' p' os op false k m :: post -> 0 < m ->
  exists r post', post = EvWrite dst_fd m r :: post'.
Proof.
  intros Ht Heq Hm. destruct Ht.
  - split_nil_app.
  - pose proof (elt_not_in is_decompress Heq eq_refl). discriminate.
  - pose proof (elt_not_in is_decompress Heq eq_refl). discriminate.
  - destruct (app_cons_split _ _ _ _ _ Heq) as [[b [Hs _]]|[a [Hb Hpre]]].
    + pose proof (elt_not_in is_decompress Hs eq_refl). discriminate.
    + destruct (app_cons_split _ _ _ _ _ Hb) as [[b [Hs ->]]|[a' [Hc _]]].
      * destruct (outer_flush _ _ _ _ _ _ _ _ _ _ H Hs Hm) as (r & post' & ->).
        simpl; eauto.
      * pose proof (elt_not_in is_decompress Hc eq_refl). discriminate.
Qed.

Lemma inner_after_step n p s ex pre post n' p' os op k m :
  inner_tr dst_fd osz n p s ex ->
  s = pre ++ EvDecompressStream n' p' os op false k m :: post ->
  (ex = InnerDone /\ n' <= p' + k /\
   post = (if Nat.eqb m 0 then [] else [EvWrite dst_fd m (Z.of_nat m)])) \/
  (exists e, (forall l, next_after m (post ++ l) = Some e) /\ follows_step n' p' k e) \/
  (exists r, post = [EvWrite dst_fd m r] /\ r <> Z.of_nat m /\ 0 < m /\ ex = InnerGoto).
Proof.
  intros Hs. revert pre. induction Hs as [p Hp|p k0 m0 Hp|p k0 rest ex Hp Hrest IH
    |p k0 m0 rest ex Hp Hm0 Hrest IH|p k0 m0 r Hp Hm0 Hr]; intros pre Heq.
  - destruct pre; discriminate.
  - split_nil_app.
  - destruct pre as [|e0 pre]; simpl in Heq.
    + injection Heq as <- <- <- <- <- <- <-.
      destruct (inner_head _ _ _ _ Hrest) as [[-> [Hn ->]]|[Hlt (err & k2 & m2 & s' & ->)]].
      * left. simpl. auto.
      * right; left. eexists. split; [intros l; reflexivity|]. simpl. auto.
    + injection Heq as _ Heq. eauto.
  - destruct pre as [|e0 [|e1 pre]]; simpl in Heq.
    + injection Heq as <- <- <- <- <- <- <-.
      assert (Nat.eqb m0 0 = false) as Hz by (apply Nat.eqb_neq; lia).
      destruct (inner_head _ _ _ _ Hrest) as [[-> [Hn ->]]|[Hlt (err & k2 & m2 & s' & ->)]].
      * left. rewrite Hz. auto.
      * right; left. eexists. split.
        -- intros l. unfold next_after. rewrite Hz. simpl. rewrite Z.eqb_refl. reflexivity.
        -- simpl. auto.
    + inversion Heq.
    + injection Heq as _ _ Heq. eauto.
  - split_nil_app. right; right. eauto.
Qed.

Lemma outer_after_step s ex pre post n' p' os op k m :
  outer_tr src_fd dst_fd isz osz s ex ->
  s = pre ++ EvDecompressStream n' p' os op false k m :: post ->
  (exists e, (forall l, next_after m (post ++ l) = Some e) /\ follows_step n' p' k e) \/
  (exists r, post = [EvWrite dst_fd m r] /\ r <> Z.of_nat m /\ 0 < m).
Proof.
  intros Hs. revert pre. induction Hs as [r Hr|n s rest ex Hn Hin Hrest IH|n s Hn Hin];
    intros pre Heq.
  - split_nil_app.
  - destruct pre as [|e0 pre]; [discriminate|]. simpl in Heq. injection Heq as _ Heq.
    destruct (app_cons_split _ _ _ _ _ Heq) as [[b [Hs' ->]]|[a [Hr _]]].
    + destruct (inner_after_step _ _ _ _ _ _ _ _ _ _ _ _ Hin Hs')
        as [(_ & Hk & ->)|[(e & He & Hf)|(r & _ & _ & _ & Hg)]].
      * left. destruct (outer_head _ _ Hrest) as (r & s' & ->).
        exists (EvRead src_fd isz r). split; [|exact Hk].
        intros l. unfold next_after.
        destruct (Nat.eqb m 0); simpl; [reflexivity|]. now rewrite Z.eqb_refl.
      * left. exists e. split; [|exact Hf]. intros l. rewrite <- app_assoc. apply He.
      * discriminate Hg.
    + eauto.
  - destruct pre as [|e0 pre]; [discriminate|]. simpl in Heq. injection Heq as _ Heq.
    destruct (inner_after_step _ _ _ _ _ _ _ _ _ _ _ _ Hin Heq)
      as [(Hg & _)|[(e & He & Hf)|(r & -> & Hr & Hm & _)]].
    + discriminate Hg.
    + left. eauto.
    + right. eauto.
Qed.

Lemma run_after_step t rc pre post n' p' os op k m e :
  run_tr src_fd dst_fd isz osz t rc ->
  t = pre ++ EvDecompressStream n' p' os op false k m :: post ->
  next_after m post = Some e -> follows_step n' p' k e.
Proof.
  intros Ht Heq Hn. destruct Ht.
  - split_nil_app.
  - pose proof (elt_not_in is_decompress Heq eq_refl). discriminate.
  - pose proof (elt_not_in is_decompress Heq eq_refl). discriminate.
  - destruct (app_cons_split _ _ _ _ _ Heq) as [[b [Hs _]]|[a [Hb Hpre]]].
    + pose proof (elt_not_in is_decompress Hs eq_refl). discriminate.
    + destruct (app_cons_split _ _ _ _ _ Hb) as [[b [Hs ->]]|[a' [Hc _]]].
      * destruct (outer_after_step _ _ _ _ _ _ _ _ _ _ H Hs)
          as [(e' & He & Hf)|(r & -> & Hr & Hm)].
        -- rewrite He in Hn. injection Hn as <-. exact Hf.
        -- unfold next_after in Hn. destruct (Nat.eqb_spec m 0); [lia|].
           simpl in Hn. apply Z.eqb_neq in Hr. rewrite Hr in Hn. discriminate.
      * pose proof (elt_not_in is_decompress Hc eq_refl). discriminate.
Qed.

End Shapes.

(** ** Facts about the sample codec *)

Module RawFacts.
Import RawCodec.

Lemma raw_run_spec pre : forall st room suf owe,
  decode st (pre ++ suf) = Some owe ->
  match run st pre room with
  | (k, o, st', e) => e = false /\ k <= length pre /\
      exists owe', owe = o ++ owe' /\ decode st' (skipn k pre ++ suf) = Some owe'
  end.
Proof.
  induction pre as [|b pre IH]; intros st room suf owe Hd.
  - simpl. repeat split; [lia|]. exists owe. auto.
  - destruct st as [|n].
    + simpl in Hd |- *. destruct (Byte.eqb b xff); [discriminate|].
      specialize (IH _ room _ _ Hd).
      destruct (run _ pre room) as [[[k o] st'] e].
      destruct IH as (He & Hk & owe' & Ho & Hd').
      split; [exact He|split; [simpl; lia|exists owe'; split; [exact Ho|exact Hd']]].
    + simpl in Hd |- *. destruct room as [|room].
      * repeat split; [simpl; lia|]. exists owe. auto.
      * destruct (decode _ (pre ++ suf)) as [owe0|] eqn:E; [|discriminate].
        injection Hd as <-.
        specialize (IH _ room _ _ E).
        destruct (run _ pre room) as [[[k o] st'] e].
        destruct IH as (He & Hk & owe' & -> & Hd').
        split; [exact He|split; [simpl; lia|exists owe'; split; [reflexivity|exact Hd']]].
Qed.

Lemma raw_run_progress b pre st room suf owe :
  0 < room -> decode st (b :: pre ++ suf) = Some owe ->
  match run st (b :: pre) room with (k, _, _, _) => 0 < k end.
Proof.
  intros Hr Hd. destruct st as [|n]; simpl in Hd |- *.
  - destruct (Byte.eqb b xff); [discriminate|].
    destruct (run _ pre room) as [[[k o] st'] e]. lia.
  - destruct room as [|room]; [lia|].
    destruct (run _ pre room) as [[[k o] st'] e]. lia.
Qed.

Lemma raw_step_ok isz osz : 0 < osz ->
  forall st pre suf owe, decode st (pre ++ suf) = Some owe -> pre <> [] ->
  match ZSTD_decompressStream (lib isz osz) st pre (ZSTD_DStreamOutSize (lib isz osz)) with
  | (r, k, o, st') => ZSTD_isError r = false /\ k <= length pre /\ (0 < k \/ o <> []) /\
      exists owe', owe = o ++ owe' /\ decode st' (skipn k pre ++ suf) = Some owe'
  end.
Proof.
  intros Hosz st pre suf owe Hd Hne. cbn [ZSTD_decompressStream ZSTD_DStreamOutSize lib].
  unfold decompressStream.
  pose proof (raw_run_spec pre st osz suf owe Hd) as Hs.
  destruct pre as [|b pre]; [congruence|].
  pose proof (raw_run_progress b pre st osz suf owe Hosz Hd) as Hp.
  destruct (run st (b :: pre) osz) as [[[k o] st'] e].
  destruct Hs as (-> & Hk & Hrest). repeat split; auto.
Qed.

Lemma raw_done_ok st owe : decode st [] = Some owe -> owe = [].
Proof. destruct st; simpl; congruence. Qed.

Lemma raw_header_byte n : 0 < n <= 254 ->
  Byte.eqb (header_byte n) xff = false /\ Byte.to_nat (header_byte n) = n.
Proof.
  intros Hn. unfold header_byte.
  destruct (Byte.of_nat n) as [b|] eqn:E.
  - apply Byte.to_of_nat in E. split; [|exact E].
    destruct (Byte.eqb b xff) eqn:Eb; [|reflexivity].
    apply Byte.byte_dec_bl in Eb. subst. simpl in Hn. lia.
  - apply Byte.of_nat_None_iff in E. lia.
Qed.

Lemma raw_decode_block blk rest :
  blk <> [] ->
  decode (Body (length blk)) (blk ++ rest) = option_map (app blk) (decode Header rest).
Proof.
  induction blk as [|b blk IH]; intros Hne; [congruence|].
  destruct blk as [|b' blk].
  - cbn [length app decode]. unfold next_after_payload. cbn [Nat.eqb].
    destruct (decode Header rest); reflexivity.
  - change (decode (Body (length (b :: b' :: blk))) ((b :: b' :: blk) ++ rest)) with
      (option_map (cons b)
         (decode (next_after_payload (S (S (length blk)))) ((b' :: blk) ++ rest))).
    unfold next_after_payload.
    replace (S (S (length blk)) =? 1) with false by reflexivity.
    replace (S (S (length blk)) - 1) with (length (b' :: blk)) by (simpl; lia).
    rewrite IH by discriminate. destruct (decode Header rest); reflexivity.
Qed.

Lemma raw_compress_aux_ok fuel bs : length bs <= fuel ->
  decode Header (compress_aux fuel bs) = Some bs.
Proof.
  induction fuel as [|fuel IH] in bs |- *; intros Hl.
  - destruct bs; [reflexivity|simpl in Hl; lia].
  - destruct bs as [|b bs']; [reflexivity|].
    cbn [compress_aux].
    assert (Hblk : 0 < length (firstn 254 (b :: bs')) <= 254).
    { rewrite length_firstn.
      destruct (Nat.min_spec 254 (length (b :: bs'))) as [[? ->]|[? ->]]; simpl in *; lia. }
    destruct (raw_header_byte _ Hblk) as [Hx Hn].
    cbn [decode]. rewrite Hx, Hn.
    unfold next_after_header.
    replace (length (firstn 254 (b :: bs')) =? 0) with false by (symmetry; apply Nat.eqb_neq; lia).
    rewrite raw_decode_block.
    + rewrite IH.
      * cbn [option_map]. now rewrite firstn_skipn.
      * rewrite length_skipn. lia.
    + intros E. rewrite E in Hblk. simpl in Hblk. lia.
Qed.

Lemma raw_compress_ok isz osz d0 B :
  ZSTD_createDStream (lib isz osz) = Some d0 ->
  decode (snd (ZSTD_initDStream (lib isz osz) d0)) (compress B) = Some B.
Proof. intros _. apply raw_compress_aux_ok. lia. Qed.

Lemma raw_run_consumed inp : forall st room,
  match run st inp room with (k, _, _, _) => k <= length inp end.
Proof.
  induction inp as [|b inp IH]; intros st room; simpl; [lia|].
  destruct st as [|n].
  - destruct (Byte.eqb b xff); [lia|].
    specialize (IH (next_after_header (Byte.to_nat b)) room).
    destruct (run _ inp room) as [[[k o] st'] e]. lia.
  - destruct room as [|room]; [lia|].
    specialize (IH (next_after_payload n) room).
    destruct (run _ inp room) as [[[k o] st'] e]. lia.
Qed.

Lemma raw_consumption_bounded isz osz : consumption_bounded (lib isz osz).
Proof.
  intros st inp room. cbn [ZSTD_decompressStream lib]. unfold decompressStream.
  pose proof (raw_run_consumed inp st room) as Hk.
  destruct (run st inp room) as [[[k o] st'] e]. destruct e; exact Hk.
Qed.

End RawFacts.

(** ** Properties of the transform *)

Section Transform.

Context {D : Type} (zstd : api D).

(** C2: on every exit path the codec context, once created, is destroyed
    exactly once, as the last call; each staging buffer that [malloc]
    returned is released by exactly one [free]. *)
Theorem resources_released_once fuel src dst w rc w' t :
  zstd_decompress_fd zstd fuel src dst w = Some (rc, w') ->
  w_trace w' = w_trace w ++ t ->
  count_ev is_create_ok t = count_ev is_free_dstream t /\
  count_ev is_free_dstream t <= 1 /\
  (count_ev is_create_ok t = 1 ->
     exists mid, t = EvCreateDStream true :: mid ++ [EvFreeDStream]) /\
  (forall b, count_ev (is_alloc b) t = count_ev (is_release b) t /\
             count_ev (is_alloc b) t <= 1).
Proof. intros H Ht. exact (run_counts _ _ _ _ _ _ (run_tr_of _ _ _ _ _ _ _ _ H Ht)). Qed.

(** C3: once a write to the destination transfers fewer bytes than
    requested, the call returns 1 and only releases its resources: no read
    and no decompression step follows. *)
Theorem short_write_aborts fuel src dst w rc w' pre post m r :
  zstd_decompress_fd zstd fuel src dst w = Some (rc, w') ->
  w_trace w' = w_trace w ++ pre ++ EvWrite dst m r :: post ->
  r <> Z.of_nat m ->
  rc = 1%Z /\ post = [EvFree InBuf true; EvFree OutBuf true; EvFreeDStream].
Proof.
  intros H Ht Hr.
  exact (run_short_write _ _ _ _ _ _ _ _ _ _ _ (run_tr_of _ _ _ _ _ _ _ _ H Ht) eq_refl Hr).
Qed.

(** C4: a read returning 0 leaves the read loop and leads to success; a
    negative read makes the call fail; both are followed only by the
    releases.  A read of [n > 0] bytes is followed by a decompression step
    on an input buffer of size [n] with cursor 0.  A successful call ends
    its read loop on a read returning 0. *)
Theorem read_results_drive_loop fuel src dst w rc w' t :
  zstd_decompress_fd zstd fuel src dst w = Some (rc, w') ->
  w_trace w' = w_trace w ++ t ->
  (forall pre post fd c, t = pre ++ EvRead fd c 0 :: post ->
     rc = 0%Z /\ post = [EvFree InBuf true; EvFree OutBuf true; EvFreeDStream]) /\
  (forall pre post fd c r, t = pre ++ EvRead fd c r :: post -> (r < 0)%Z ->
     rc = 1%Z /\ post = [EvFree InBuf true; EvFree OutBuf true; EvFreeDStream]) /\
  (forall pre post fd c r, t = pre ++ EvRead fd c r :: post -> (0 < r)%Z ->
     exists err k m post',
       post = EvDecompressStream (Z.to_nat r) 0 (ZSTD_DStreamOutSize zstd) 0 err k m
              :: post') /\
  (rc = 0%Z -> exists pre,
     t = pre ++ [EvRead src (ZSTD_DStreamInSize zstd) 0;
                 EvFree InBuf true; EvFree OutBuf true; EvFreeDStream]).
Proof.
  intros H Ht. pose proof (run_tr_of _ _ _ _ _ _ _ _ H Ht) as Hr.
  split; [|split; [|split]].
  - intros pre post fd c Heq.
    destruct (run_read _ _ _ _ _ _ _ _ _ _ _ Hr Heq) as [H1 _].
    destruct (H1 ltac:(lia)) as [-> ->]. auto.
  - intros pre post fd c r Heq Hneg.
    destruct (run_read _ _ _ _ _ _ _ _ _ _ _ Hr Heq) as [H1 _].
    destruct (H1 ltac:(lia)) as [-> ->].
    destruct (Z.ltb_spec r 0); [auto|lia].
  - intros pre post fd c r Heq Hpos.
    destruct (run_read _ _ _ _ _ _ _ _ _ _ _ Hr Heq) as [_ H2]. auto.
  - intros H0. exact (run_success_last_read _ _ _ _ _ _ Hr H0).
Qed.

(** C5: when context creation fails the call fails having allocated no
    buffer; when stream initialisation reports an error it destroys the
    context and fails; when an allocation fails it frees both buffer
    pointers (releasing the non-NULL ones) and the context and fails.  In
    all three cases nothing is written to the destination. *)
Theorem setup_failures_clean fuel src dst w rc w' t :
  zstd_decompress_fd zstd fuel src dst w = Some (rc, w') ->
  w_trace w' = w_trace w ++ t ->
  (In (EvCreateDStream false) t ->
     rc = 1%Z /\ t = [EvCreateDStream false] /\ w_out w' = w_out w) /\
  (In (EvInitDStream true) t ->
     rc = 1%Z /\ t = [EvCreateDStream true; EvInitDStream true; EvFreeDStream] /\
     w_out w' = w_out w) /\
  (forall b sz, In (EvMalloc b sz false) t ->
     exists a1 a2, a1 && a2 = false /\ rc = 1%Z /\
       t = [EvCreateDStream true; EvInitDStream false;
            EvMalloc InBuf (ZSTD_DStreamInSize zstd) a1;
            EvMalloc OutBuf (ZSTD_DStreamOutSize zstd) a2;
            EvFree InBuf a1; EvFree OutBuf a2; EvFreeDStream] /\
       w_out w' = w_out w).
Proof.
  intros H Ht. pose proof (run_tr_of _ _ _ _ _ _ _ _ H Ht) as Hr.
  assert (Hout : forall x l, t = x :: l -> x <> EvCreateDStream true ->
                 w_out w' = w_out w).
  { intros x l -> Hx. destruct (run_out_setup _ _ _ _ _ _ _ H) as [Ho|[s' Hs']];
      [exact Ho|]. rewrite Ht in Hs'. apply app_inv_head in Hs'.
    injection Hs' as Hx' _. congruence. }
  assert (Hout2 : forall x y l, t = x :: y :: l -> y <> EvInitDStream false ->
                  w_out w' = w_out w).
  { intros x y l -> Hy. destruct (run_out_setup _ _ _ _ _ _ _ H) as [Ho|[s' Hs']];
      [exact Ho|]. rewrite Ht in Hs'. apply app_inv_head in Hs'.
    injection Hs' as _ Hy' _. congruence. }
  inversion Hr as [Ht'|Ht'|a1 a2 Hab Ht'|body ex Hbody Ht' Hrc]; subst.
  - split; [|split].
    + intros _. repeat split. eapply Hout; [reflexivity|discriminate].
    + intros [Hi|[]]. discriminate.
    + intros b sz [Hi|[]]. discriminate.
  - split; [|split].
    + intros [Hi|[Hi|[Hi|[]]]]; discriminate.
    + intros _. repeat split. eapply Hout2; [reflexivity|discriminate].
    + intros b sz [Hi|[Hi|[Hi|[]]]]; discriminate.
  - split; [|split].
    + intros Hi. simpl in Hi. intuition discriminate.
    + intros Hi. simpl in Hi. intuition discriminate.
    + intros b sz _. exists a1, a2. repeat split; [exact Hab|].
      destruct (run_out_setup _ _ _ _ _ _ _ H) as [Ho|[s' Hs']]; [exact Ho|].
      rewrite Ht in Hs'. apply app_inv_head in Hs'. simpl in Hs'.
      injection Hs' as -> ->. discriminate.
  - pose proof (outer_tr_io _ _ _ _ _ _ Hbody) as Hio.
    assert (Hno : forall x, is_io x = false ->
              In x (setup_ok (ZSTD_DStreamInSize zstd) (ZSTD_DStreamOutSize zstd)
                      ++ body ++ cleanup) ->
              In x (setup_ok (ZSTD_DStreamInSize zstd) (ZSTD_DStreamOutSize zstd))
              \/ In x cleanup).
    { intros x Hx Hi. apply in_app_or in Hi as [Hi|Hi]; [auto|].
      apply in_app_or in Hi as [Hi|Hi]; [|auto].
      rewrite forallb_forall in Hio. rewrite (Hio x Hi) in Hx. discriminate. }
    split; [|split].
    + intros Hi. destruct (Hno (EvCreateDStream false) eq_refl Hi) as [Hj|Hj];
        simpl in Hj; intuition discriminate.
    + intros Hi. destruct (Hno (EvInitDStream true) eq_refl Hi) as [Hj|Hj];
        simpl in Hj; intuition discriminate.
    + intros b sz Hi. destruct (Hno (EvMalloc b sz false) eq_refl Hi) as [Hj|Hj];
        simpl in Hj; intuition discriminate.
Qed.

(** C6: every decompression step is handed the output buffer at position
    0 with its full capacity; output a step produces is written before
    anything else happens; after a successful step (and its write), the
    next call is a further step on the same chunk from the advanced cursor
    while the cursor is below the chunk size, and a new read only once the
    cursor equals the chunk size (the library never advances the cursor
    past the size). *)
Theorem chunk_drained_before_refill (Hb : consumption_bounded zstd)
    fuel src dst w rc w' t :
  zstd_decompress_fd zstd fuel src dst w = Some (rc, w') ->
  w_trace w' = w_trace w ++ t ->
  (forall n p os op err k m, In (EvDecompressStream n p os op err k m) t ->
     os = ZSTD_DStreamOutSize zstd /\ op = 0) /\
  (forall pre post n p os op k m,
     t = pre ++ EvDecompressStream n p os op false k m :: post -> 0 < m ->
     exists r post', post = EvWrite dst m r :: post') /\
  (forall pre post n p os op k m e,
     t = pre ++ EvDecompressStream n p os op false k m :: post ->
     next_after m post = Some e ->
     match e with
     | EvRead _ _ _ => p + k = n
     | EvDecompressStream n2 p2 _ _ _ _ _ => n2 = n /\ p2 = p + k /\ p + k < n
     | _ => False
     end).
Proof.
  intros H Ht. pose proof (run_tr_of _ _ _ _ _ _ _ _ H Ht) as Hr.
  split; [|split].
  - intros n p os op err k m Hi.
    pose proof (run_fresh _ _ _ _ _ _ Hr) as Hf. rewrite Forall_forall in Hf.
    exact (Hf _ Hi).
  - intros pre post n p os op k m Heq Hm.
    exact (run_flush _ _ _ _ _ _ _ _ _ _ _ _ _ _ Hr Heq Hm).
  - intros pre post n p os op k m e Heq Hn.
    pose proof (run_after_step _ _ _ _ _ _ _ _ _ _ _ _ _ _ _ Hr Heq Hn) as Hf.
    destruct (run_bounded _ Hb _ _ _ _ _ _ H) as [t' [Ht' Hbd]].
    rewrite Ht in Ht'. apply app_inv_head in Ht'. subst t'.
    rewrite Forall_forall in Hbd.
    assert (Hk : p + k <= n).
    { apply (Hbd (EvDecompressStream n p os op false k m)). rewrite Heq.
      apply in_elt. }
    destruct e; simpl in Hf; try contradiction; [lia|exact Hf].
Qed.

(** C7: the call returns 0 exactly when none of its calls failed, and 1
    on every failure path. *)
Theorem rc_zero_iff_no_failure fuel src dst w rc w' t :
  zstd_decompress_fd zstd fuel src dst w = Some (rc, w') ->
  w_trace w' = w_trace w ++ t ->
  (rc = 0%Z <-> existsb is_failure t = false) /\ (rc <> 0%Z -> rc = 1%Z).
Proof.
  intros H Ht. destruct (run_failure _ _ _ _ _ _ (run_tr_of _ _ _ _ _ _ _ _ H Ht))
    as [Hf Hrc].
  rewrite Hf. split.
  - destruct (Z.eqb_spec rc 0); simpl; split; congruence.
  - lia.
Qed.

(** C9: a write whose result differs from the staged output size, a
    negative error result such as -1 as much as a short count, is handled
    like a short write: the call returns 1 and only releases its resources
    afterwards. *)
Theorem failed_write_aborts fuel src dst w rc w' pre post m r :
  zstd_decompress_fd zstd fuel src dst w = Some (rc, w') ->
  w_trace w' = w_trace w ++ pre ++ EvWrite dst m r :: post ->
  r <> Z.of_nat m ->
  rc = 1%Z /\ post = [EvFree InBuf true; EvFree OutBuf true; EvFreeDStream].
Proof.
  intros H Ht Hr.
  exact (run_short_write _ _ _ _ _ _ _ _ _ _ _ (run_tr_of _ _ _ _ _ _ _ _ H Ht) eq_refl Hr).
Qed.

End Transform.

(** ** Round trip

    The codec is left abstract, with the contract of a streaming
    decompressor for which [R d c owe] reads: from stream state [d], the
    compressed bytes [c] still to come decode to [owe].  A step handed a
    nonempty prefix of those bytes and a full output buffer succeeds, makes
    progress, consumes part of the prefix and produces a prefix of what is
    owed; at the end of a complete stream nothing is owed; and the
    reference compressor's output decodes, from a fresh stream, to its
    input. *)

Section RoundTrip.
Context {D : Type} (zstd : api D).
Variable R : D -> list byte -> list byte -> Prop.
Hypothesis codec_step : forall d pre suf owe, R d (pre ++ suf) owe -> pre <> [] ->
  match ZSTD_decompressStream zstd d pre (ZSTD_DStreamOutSize zstd) with
  | (r, k, o, d') => ZSTD_isError r = false /\ k <= length pre /\ (0 < k \/ o <> []) /\
      exists owe', owe = o ++ owe' /\ R d' (skipn k pre ++ suf) owe'
  end.
Hypothesis codec_done : forall d owe, R d [] owe -> owe = [].

Lemma write_all fd bs w :
  Forall (eq WrAll) (w_dst w) ->
  write fd bs w = Some (Z.of_nat (length bs),
    mkWorld (w_malloc w) (w_src w) (tl (w_dst w)) (w_out w ++ bs)
            (w_trace w ++ [EvWrite fd (length bs) (Z.of_nat (length bs))])).
Proof. unfold write. intros [|x l Hx _]; [reflexivity|]. now subst. Qed.

Lemma inner_loop_ok fuel dst d chunk p rest owe w :
  R d (skipn p chunk ++ rest) owe ->
  Forall (eq WrAll) (w_dst w) ->
  length (skipn p chunk) + length owe < fuel ->
  exists d' owe' o w',
    inner_loop zstd fuel dst d chunk (mkIn (length chunk) p) w = Some ((InnerDone, d'), w')
    /\ R d' rest owe' /\ owe = o ++ owe' /\ w_out w' = w_out w ++ o
    /\ w_src w' = w_src w /\ Forall (eq WrAll) (w_dst w').
Proof.
  induction fuel as [|fuel IH] in d, p, owe, w |- *; intros HR Hw Hf; [lia|].
  cbn [inner_loop in_pos in_size].
  destruct (Nat.ltb_spec p (length chunk)) as [Hp|Hp].
  - assert (Hne : skipn p chunk <> []).
    { intros Hn. apply (f_equal (@length byte)) in Hn. rewrite length_skipn in Hn.
      simpl in Hn. lia. }
    pose proof (codec_step _ _ _ _ HR Hne) as Hs.
    unfold bind at 1, decompressStream. cbn [in_pos in_size out_pos out_size].
    rewrite firstn_all, Nat.sub_0_r.
    destruct (ZSTD_decompressStream zstd d (skipn p chunk) (ZSTD_DStreamOutSize zstd))
      as [[[r k] o] d'] eqn:E.
    destruct Hs as (Hr & Hk & Hprog & owe' & -> & HR').
    rewrite Hr. cbn [out_pos out_size in_pos in_size]. rewrite Nat.add_0_l.
    rewrite skipn_skipn, Nat.add_comm in HR'.
    assert (Hf' : length (skipn (p + k) chunk) + length owe' < fuel).
    { rewrite !length_skipn in *. rewrite length_app in Hf.
      destruct Hprog as [Hprog|Hprog]; [lia|].
      destruct o; [congruence|]. simpl in Hf. lia. }
    destruct (Nat.ltb_spec 0 (length o)) as [Ho|Ho].
    + rewrite firstn_all. unfold bind at 1.
      rewrite write_all by exact Hw. rewrite Z.eqb_refl. cbn [negb].
      assert (Hw' : Forall (eq WrAll) (tl (w_dst w))).
      { destruct Hw; simpl; auto. }
      match goal with |- context [inner_loop zstd fuel dst d' chunk _ ?w1] =>
        destruct (IH d' (p + k) owe' w1 HR' Hw' Hf')
          as (d2 & owe2 & o2 & w2 & Hrun & HR2 & -> & Ho2 & Hs2 & Hw2) end.
      exists d2, owe2, (o ++ o2), w2. simpl in Ho2, Hs2.
      repeat split; auto.
      * apply app_assoc.
      * rewrite Ho2. symmetry. apply app_assoc.
    + destruct o; [|simpl in Ho; lia].
      match goal with |- context [inner_loop zstd fuel dst d' chunk _ ?w1] =>
        destruct (IH d' (p + k) owe' w1 HR' Hw Hf')
          as (d2 & owe2 & o2 & w2 & Hrun & HR2 & -> & Ho2 & Hs2 & Hw2) end.
      exists d2, owe2, o2, w2. repeat split; auto.
  - exists d, owe, [], w. rewrite skipn_all2 in HR by lia.
    repeat split; auto. now rewrite app_nil_r.
Qed.

Lemma read_loop_ok fuel src dst d chunks owe w :
  0 < ZSTD_DStreamInSize zstd ->
  w_src w = map RdData chunks -> Forall (fun c => c <> []) chunks ->
  R d (concat chunks) owe -> Forall (eq WrAll) (w_dst w) ->
  length (concat chunks) + length owe + 2 <= fuel ->
  exists d' w', read_loop zstd fuel src dst d w = Some ((OuterEnd 0, d'), w')
    /\ w_out w' = w_out w ++ owe.
Proof.
  intros Hisz.
  induction fuel as [|fuel IH] in d, chunks, owe, w |- *; intros Hsrc Hne HR Hw Hf; [lia|].
  cbn [read_loop]. unfold bind at 1, read. rewrite Hsrc.
  destruct chunks as [|bs rest].
  - cbn. exists d. eexists. split; [reflexivity|].
    simpl in HR. rewrite (codec_done _ _ HR). simpl. now rewrite app_nil_r.
  - inversion Hne as [|? ? Hbs Hne']; subst.
    set (isz := ZSTD_DStreamInSize zstd) in *.
    assert (Hlen : 0 < length (firstn isz bs)).
    { rewrite length_firstn. destruct bs; [congruence|]. simpl. lia. }
    simpl (read_script _ _). fold isz. cbv beta iota zeta.
    assert (Hsplit : concat (bs :: rest) = firstn isz bs ++ (skipn isz bs ++ concat rest)).
    { simpl. now rewrite app_assoc, firstn_skipn. }
    assert (Hlc : length (concat (bs :: rest)) = length (firstn isz bs) + length (skipn isz bs ++ concat rest)).
    { now rewrite Hsplit, length_app. }
    rewrite (proj2 (Z.ltb_lt 0 _)) by lia. cbv iota.
    rewrite Nat2Z.id. unfold bind at 1.
    rewrite Hsplit in HR.
    match goal with |- context [inner_loop zstd fuel dst d _ _ ?w1] =>
      destruct (inner_loop_ok fuel dst d (firstn isz bs) 0 (skipn isz bs ++ concat rest) owe w1
                  HR Hw ltac:(simpl; lia))
        as (d1 & owe1 & o & w2 & Hrun & HR1 & -> & Ho & Hs & Hw2) end.
    rewrite Hrun. cbv iota.
    assert (Hex : exists chunks', w_src w2 = map RdData chunks' /\
               Forall (fun c => c <> []) chunks' /\
               concat chunks' = skipn isz bs ++ concat rest).
    { rewrite Hs. simpl. destruct (skipn isz bs) as [|x l].
      - now exists rest.
      - exists ((x :: l) :: rest). split; [reflexivity|].
        split; [constructor; [discriminate|exact Hne']|reflexivity]. }
    destruct Hex as (chunks' & Hs' & Hne2 & Hc').
    rewrite <- Hc' in HR1.
    rewrite length_app in Hf.
    destruct (IH d1 chunks' owe1 w2 Hs' Hne2 HR1 Hw2) as (d' & w' & Hrl & Hout).
    { rewrite Hc'. lia. }
    exists d', w'. split; [exact Hrl|]. rewrite Hout, Ho. simpl. now rewrite app_assoc.
Qed.


Variable compress : list byte -> list byte.
Hypothesis codec_compress : forall d0 B, ZSTD_createDStream zstd = Some d0 ->
  R (snd (ZSTD_initDStream zstd d0)) (compress B) B.

(** C8: decompressing the output of the reference compressor for any bytes
    [B], delivered by the source in any nonempty pieces, succeeds and
    writes exactly [B] (given the codec's contract, allocations and full
    writes succeeding, and enough fuel for the loops). *)
Theorem round_trip fuel src dst w B chunks d0 :
  ZSTD_createDStream zstd = Some d0 ->
  ZSTD_isError (fst (ZSTD_initDStream zstd d0)) = false ->
  0 < ZSTD_DStreamInSize zstd ->
  Forall (eq true) (firstn 2 (w_malloc w)) ->
  w_src w = map RdData chunks -> Forall (fun c => c <> []) chunks ->
  concat chunks = compress B ->
  Forall (eq WrAll) (w_dst w) ->
  length (compress B) + length B + 2 <= fuel ->
  exists w', zstd_decompress_fd zstd fuel src dst w = Some (0%Z, w')
    /\ w_out w' = w_out w ++ B.
Proof.
  intros Hc Hi Hisz Hm Hsrc Hne Hcat Hw Hf.
  pose proof (codec_compress d0 B Hc) as HR.
  unfold zstd_decompress_fd, bind at 1, createDStream. rewrite Hc. cbv beta iota.
  unfold bind at 1, initDStream.
  destruct (ZSTD_initDStream zstd d0) as [r d1] eqn:Ei. simpl in Hi, HR.
  rewrite Hi. cbv beta iota.
  assert (Hm2 : (exists l, w_malloc w = true :: true :: l) \/ w_malloc w = [true] \/
                w_malloc w = []).
  { destruct (w_malloc w) as [|a [|b l]]; simpl in Hm.
    - auto.
    - inversion Hm; subst. auto.
    - inversion Hm as [|? ? Ha Hm']; inversion Hm'; subst. eauto. }
  rewrite <- Hcat in HR, Hf.
  unfold bind, malloc, ret, freeDStream, free, emit.
  cbn -[read_loop]. destruct Hm2 as [[l E]|[E|E]]; rewrite E; cbn -[read_loop];
  match goal with |- context [read_loop zstd fuel src dst d1 ?w1] =>
    destruct (read_loop_ok fuel src dst d1 chunks B w1 Hisz Hsrc Hne HR Hw Hf)
      as (d' & w' & Hrl & Hout) end;
  rewrite Hrl; eexists; (split; [reflexivity|]); simpl; rewrite Hout; reflexivity.
Qed.

End RoundTrip.

(** ** A truncated stream *)

(** C1 (the code disagrees): the frame [x03; x0a; x14] announces three
    payload bytes and carries two; the reference decoder rejects it, and the
    codec's last step succeeds with hint 1 (one byte still expected).  The
    source then reports end of file, the read loop ends normally and the
    call returns 0, having written the two bytes: the result of the last
    [ZSTD_decompressStream] is never compared with 0. *)
Theorem truncated_stream_succeeds :
  RawCodec.decode RawCodec.Header [x03; x0a; x14] = None /\
  RawCodec.decompressStream RawCodec.Header [x03; x0a; x14] 4
    = (ZSTD_ok 1, 3, [x0a; x14], RawCodec.Body 1) /\
  exists w',
    zstd_decompress_fd (RawCodec.lib 4 4) 10 3 4 (world_of [RdData [x03; x0a; x14]])
      = Some (0%Z, w') /\ w_out w' = [x0a; x14].
Proof.
  split; [reflexivity|]. split; [reflexivity|].
  eexists. split; [vm_compute; reflexivity|reflexivity].
Qed.

(** ** Error strings *)

Lemma string_append_empty (s : string) : (s ++ "")%string = s.
Proof. induction s as [|c s IH]; simpl; [reflexivity|now rewrite IH]. Qed.

(** C10: [archive_set_error_wrapper] records its error number and, for any
    non-NULL string, that string verbatim as the archive's error: the
    string is formatted by the fixed directive ["%s"], so directives it
    contains are never interpreted. *)
Theorem archive_set_error_wrapper_verbatim a error_number s :
  archive_set_error_wrapper a error_number (Some s)
    = Some (mkArchive error_number (Some s) s).
Proof.
  unfold archive_set_error_wrapper, archive_set_error. cbn.
  now rewrite string_append_empty.
Qed.

(** ** Further properties of the transform *)

Section Failures.

Variables (src_fd dst_fd : Z) (isz osz : nat).

Lemma inner_failure_last n p s ex pre e post :
  inner_tr dst_fd osz n p s ex -> s = pre ++ e :: post -> is_failure e = true ->
  post = [] /\ existsb is_failure pre = false.
Proof.
  intros Hs. revert pre. induction Hs; intros pre Heq Hf.
  - destruct pre; discriminate.
  - split_nil_app. auto.
  - destruct pre as [|x pre]; simpl in Heq; injection Heq as <- Heq.
    + discriminate.
    + destruct (IHHs _ Heq Hf) as [-> Hp]. simpl. auto.
  - destruct pre as [|x [|y pre]]; simpl in Heq.
    + injection Heq as <- _. discriminate.
    + injection Heq as <- <- _. simpl in Hf. rewrite Z.eqb_refl in Hf. discriminate.
    + injection Heq as <- <- Heq. destruct (IHHs _ Heq Hf) as [-> Hp].
      simpl. rewrite Z.eqb_refl. auto.
  - split_nil_app; [discriminate|auto].
Qed.

Lemma outer_failure_last s ex pre e post :
  outer_tr src_fd dst_fd isz osz s ex -> s = pre ++ e :: post -> is_failure e = true ->
  post = [] /\ existsb is_failure pre = false.
Proof.
  intros Hs. revert pre. induction Hs; intros pre Heq Hf.
  - split_nil_app. auto.
  - destruct pre as [|x pre]; simpl in Heq; injection Heq as <- Heq.
    + simpl in Hf. destruct (Z.ltb_spec (Z.of_nat n) 0); [lia|discriminate].
    + destruct (app_cons_split _ _ _ _ _ Heq) as [[b [Hs' _]]|[a [Hrest ->]]].
      * destruct (inner_failure_last _ _ _ _ _ _ _ H0 Hs' Hf) as [_ Hp].
        pose proof (inner_failure _ _ _ _ _ _ H0) as Hi. rewrite Hs' in Hi.
        rewrite existsb_app in Hi. simpl in Hi. rewrite Hf, orb_true_r in Hi. discriminate.
      * destruct (IHHs _ Hrest Hf) as [-> Hp]. split; [reflexivity|].
        simpl. rewrite existsb_app, (inner_failure _ _ _ _ _ _ H0), Hp.
        destruct (Z.ltb_spec (Z.of_nat n) 0); [lia|reflexivity].
  - destruct pre as [|x pre]; simpl in Heq; injection Heq as <- Heq.
    + simpl in Hf. destruct (Z.ltb_spec (Z.of_nat n) 0); [lia|discriminate].
    + destruct (inner_failure_last _ _ _ _ _ _ _ H0 Heq Hf) as [-> Hp].
      split; [reflexivity|]. simpl. rewrite Hp.
      destruct (Z.ltb_spec (Z.of_nat n) 0); [lia|reflexivity].
Qed.

Lemma forallb_suffix {A} (f : A -> bool) pre x post :
  forallb f (pre ++ x :: post) = true -> forallb f post = true.
Proof.
  rewrite forallb_app. simpl. intros H.
  apply andb_true_iff in H as [_ H]. apply andb_true_iff in H as [_ H]. exact H.
Qed.

Lemma run_failure_last t rc pre e post :
  run_tr src_fd dst_fd isz osz t rc -> t = pre ++ e :: post -> is_failure e = true ->
  rc = 1%Z /\ forallb (fun x => negb (is_io x)) post = true /\
  (is_io e = true -> post = cleanup /\ existsb is_failure pre = false).
Proof.
  intros Ht Heq Hf.
  assert (Hnoio : forall t', t' = pre ++ e :: post ->
            forallb (fun x => negb (is_io x)) t' = true ->
            forallb (fun x => negb (is_io x)) post = true /\
            (is_io e = true -> post = cleanup /\ existsb is_failure pre = false)).
  { intros t' Ht' Hn. split.
    { rewrite Ht' in Hn. exact (forallb_suffix _ _ _ _ Hn). }
    intros Hio. rewrite (elt_not_in is_io Ht' Hn) in Hio. discriminate. }
  destruct Ht.
  - split; [reflexivity|]. exact (Hnoio _ Heq eq_refl).
  - split; [reflexivity|]. exact (Hnoio _ Heq eq_refl).
  - split; [reflexivity|]. exact (Hnoio _ Heq eq_refl).
  - destruct (app_cons_split _ _ _ _ _ Heq) as [[b [Hs _]]|[a [Hb Hpre]]].
    + assert (Hok : forallb (fun x => negb (is_failure x))
                      (setup_ok isz osz) = true) by reflexivity.
      rewrite (elt_not_in is_failure Hs Hok) in Hf. discriminate.
    + destruct (app_cons_split _ _ _ _ _ Hb) as [[b [Hs Hpost]]|[a' [Hc _]]].
      * destruct (outer_failure_last _ _ _ _ _ H Hs Hf) as [-> Hp].
        destruct (outer_failure _ _ _ _ _ _ H) as [H1 H2].
        rewrite Hs, existsb_app in H1. simpl in H1. rewrite Hf, orb_true_r in H1.
        simpl in Hpost. subst post.
        split; [destruct H2 as [H2|H2]; [rewrite H2 in H1; discriminate|exact H2]|].
        split; [reflexivity|]. intros _. split; [reflexivity|].
        rewrite Hpre, existsb_app, Hp. reflexivity.
      * assert (Hok : forallb (fun x => negb (is_failure x)) cleanup = true)
          by reflexivity.
        rewrite (elt_not_in is_failure Hc Hok) in Hf. discriminate.
Qed.

Lemma inner_calls n p s ex :
  inner_tr dst_fd osz n p s ex -> Forall (call_ok src_fd dst_fd isz) s.
Proof. induction 1; repeat constructor; simpl; auto. Qed.

Lemma outer_calls s ex :
  outer_tr src_fd dst_fd isz osz s ex -> Forall (call_ok src_fd dst_fd isz) s.
Proof.
  induction 1.
  - repeat constructor.
  - constructor; [simpl; auto|]. apply Forall_app. split; [exact (inner_calls _ _ _ _ H0)|assumption].
  - constructor; [simpl; auto|]. exact (inner_calls _ _ _ _ H0).
Qed.

Lemma run_calls t rc :
  run_tr src_fd dst_fd isz osz t rc -> Forall (call_ok src_fd dst_fd isz) t.
Proof.
  destruct 1; try solve [repeat constructor].
  apply Forall_app. split; [repeat constructor|].
  apply Forall_app. split; [exact (outer_calls _ _ H)|repeat constructor].
Qed.

End Failures.









Section Accounting.

Context {D : Type} (zstd : api D).







End Accounting.


Section Delivered.

Variables (src_fd dst_fd : Z) (isz osz : nat).




End Delivered.

Section Within.

Context {D : Type} (zstd : api D).
Hypothesis Hprod : production_bounded zstd.

Lemma inner_loop_within fuel dst d in_buf n p w ex d' w' :
  inner_loop zstd fuel dst d in_buf (mkIn n p) w = Some ((ex, d'), w') ->
  exists s, w_trace w' = w_trace w ++ s /\ Forall (within_out (ZSTD_DStreamOutSize zstd)) s.
Proof.
  revert d p w. induction fuel as [|fuel IH]; intros d p w H; [discriminate|].
  simpl in H. destruct (Nat.ltb_spec p n) as [Hlt|Hge].
  - unfold bind, decompressStream in H. simpl in H.
    pose proof (Hprod d (skipn p (firstn n in_buf)) (ZSTD_DStreamOutSize zstd - 0)) as Hb.
    destruct (ZSTD_decompressStream zstd d (skipn p (firstn n in_buf))
                (ZSTD_DStreamOutSize zstd - 0)) as [[[res k] o] d1] eqn:Hd.
    rewrite Nat.sub_0_r in *. cbn [out_pos out_size in_pos in_size] in H.
    destruct (ZSTD_isError res) eqn:He.
    + inversion H; subst. eexists. split; [reflexivity|].
      constructor; [exact Hb|constructor].
    + destruct (Nat.ltb_spec 0 (length o)) as [Hm|Hm].
      * unfold write in H. rewrite firstn_all in H.
        destruct (write_script o _) as [[r acc] dst'] eqn:Hw. simpl in H.
        destruct (Z.eqb_spec r (Z.of_nat (length o))) as [Hr|Hr]; simpl in H.
        -- apply IH in H. destruct H as [s [Ht Hs]]. simpl in Ht.
           exists (EvDecompressStream n p (ZSTD_DStreamOutSize zstd) 0 false k (length o)
                   :: EvWrite dst (length o) r :: s).
           split; [rewrite Ht, <- !app_assoc; reflexivity|].
           constructor; [exact Hb|constructor; [exact Hb|exact Hs]].
        -- inversion H; subst. simpl.
           eexists. split; [rewrite <- app_assoc; reflexivity|].
           constructor; [exact Hb|constructor; [exact Hb|constructor]].
      * apply IH in H. destruct H as [s [Ht Hs]]. simpl in Ht.
        exists (EvDecompressStream n p (ZSTD_DStreamOutSize zstd) 0 false k (length o) :: s).
        split; [rewrite Ht, <- !app_assoc; reflexivity|].
        constructor; [exact Hb|exact Hs].
  - inversion H; subst. exists []. split; [now rewrite app_nil_r|]. constructor.
Qed.

Lemma read_loop_within fuel src dst d w ex d' w' :
  read_loop zstd fuel src dst d w = Some ((ex, d'), w') ->
  exists s, w_trace w' = w_trace w ++ s /\ Forall (within_out (ZSTD_DStreamOutSize zstd)) s.
Proof.
  revert d w. induction fuel as [|fuel IH]; intros d w H; [discriminate|].
  simpl in H. unfold bind, read in H.
  destruct (read_script (ZSTD_DStreamInSize zstd) (w_src w)) as [[r got] src'] eqn:Hr.
  simpl in H. destruct (Z.ltb_spec 0 r) as [Hpos|Hnpos].
  - destruct (inner_loop zstd fuel dst d got (mkIn (Z.to_nat r) 0) _)
      as [[[ex1 d1] w1]|] eqn:Hi; [|discriminate].
    apply inner_loop_within in Hi. destruct Hi as [s1 [Ht1 Hs1]]. simpl in Ht1.
    destruct ex1.
    + apply IH in H. destruct H as [s2 [Ht2 Hs2]].
      exists (EvRead src (ZSTD_DStreamInSize zstd) r :: s1 ++ s2).
      split; [rewrite Ht2, Ht1, <- !app_assoc; reflexivity|].
      constructor; [exact I|apply Forall_app; auto].
    + inversion H; subst.
      exists (EvRead src (ZSTD_DStreamInSize zstd) r :: s1).
      split; [rewrite Ht1, <- !app_assoc; reflexivity|].
      constructor; [exact I|exact Hs1].
  - inversion H; subst. eexists. split; [reflexivity|]. repeat constructor.
Qed.

End Within.

Section Partial.

Context {D : Type} (zstd : api D).
Variable R : D -> list byte -> list byte -> Prop.
Hypothesis codec_step : forall d pre suf owe, R d (pre ++ suf) owe -> pre <> [] ->
  match ZSTD_decompressStream zstd d pre (ZSTD_DStreamOutSize zstd) with
  | (r, k, o, d') => ZSTD_isError r = false /\ k <= length pre /\ (0 < k \/ o <> []) /\
      exists owe', owe = o ++ owe' /\ R d' (skipn k pre ++ suf) owe'
  end.

Lemma read_loop_partial fuel src dst d chunks ending tail owe w :
  0 < ZSTD_DStreamInSize zstd ->
  w_src w = map RdData chunks ++ ending ->
  (ending = [] \/ exists rest, ending = RdError :: rest) ->
  Forall (fun c => c <> []) chunks ->
  R d (concat chunks ++ tail) owe -> Forall (eq WrAll) (w_dst w) ->
  length (concat chunks) + length owe + 2 <= fuel ->
  exists d' w' o owe', read_loop zstd fuel src dst d w = Some ((OuterEnd (end_code ending), d'), w')
    /\ owe = o ++ owe' /\ R d' tail owe' /\ w_out w' = w_out w ++ o.
Proof.
  intros Hisz Hsrc Hend.
  induction fuel as [|fuel IH] in d, chunks, owe, w, Hsrc |- *; intros Hne HR Hw Hf; [lia|].
  cbn [read_loop]. unfold bind at 1, read. rewrite Hsrc.
  destruct chunks as [|bs rest].
  - simpl in HR.
    destruct Hend as [->|[rest ->]]; exists d; eexists; exists [], owe; cbn;
      (split; [reflexivity|]);
      rewrite app_nil_r; auto.
  - inversion Hne as [|? ? Hbs Hne']; subst.
    set (isz := ZSTD_DStreamInSize zstd) in *.
    assert (Hlen : 0 < length (firstn isz bs)).
    { rewrite length_firstn. destruct bs; [congruence|]. simpl. lia. }
    simpl (read_script _ _). fold isz. cbv beta iota zeta.
    assert (Hsplit : concat (bs :: rest) ++ tail
                     = firstn isz bs ++ (skipn isz bs ++ concat rest ++ tail)).
    { simpl. now rewrite <- !app_assoc, (app_assoc (firstn _ _)), firstn_skipn. }
    assert (Hlc : length (concat (bs :: rest)) = length (firstn isz bs) + length (skipn isz bs ++ concat rest)).
    { simpl. now rewrite <- (firstn_skipn isz bs) at 1; rewrite <- app_assoc, length_app. }
    rewrite (proj2 (Z.ltb_lt 0 _)) by lia. cbv iota.
    rewrite Nat2Z.id. unfold bind at 1.
    rewrite Hsplit in HR.
    match goal with |- context [inner_loop zstd fuel dst d _ _ ?w1] =>
      destruct (inner_loop_ok zstd R codec_step fuel dst d (firstn isz bs) 0
                  (skipn isz bs ++ concat rest ++ tail) owe w1
                  HR Hw ltac:(simpl; lia))
        as (d1 & owe1 & o & w2 & Hrun & HR1 & -> & Ho & Hs & Hw2) end.
    rewrite Hrun. cbv iota.
    assert (Hex : exists chunks', w_src w2 = map RdData chunks' ++ ending /\
               Forall (fun c => c <> []) chunks' /\
               concat chunks' = skipn isz bs ++ concat rest).
    { rewrite Hs. simpl. destruct (skipn isz bs) as [|x l].
      - now exists rest.
      - exists ((x :: l) :: rest). split; [reflexivity|].
        split; [constructor; [discriminate|exact Hne']|reflexivity]. }
    destruct Hex as (chunks' & Hs' & Hne2 & Hc').
    rewrite app_assoc, <- Hc' in HR1.
    rewrite length_app in Hf.
    destruct (IH d1 chunks' owe1 w2 Hs' Hne2 HR1 Hw2) as (d' & w' & o' & owe' & Hrl & -> & HR' & Hout).
    { rewrite Hc'. lia. }
    exists d', w', (o ++ o'), owe'. split; [exact Hrl|].
    split; [apply app_assoc|]. split; [exact HR'|].
    rewrite Hout, Ho. simpl. now rewrite app_assoc.
Qed.

End Partial.

Lemma raw_run_produced inp : forall st room,
  match RawCodec.run st inp room with (_, o, _, _) => length o <= room end.
Proof.
  induction inp as [|b inp IH]; intros st room; simpl; [lia|].
  destruct st as [|n].
  - destruct (Byte.eqb b xff); [simpl; lia|].
    specialize (IH (RawCodec.next_after_header (Byte.to_nat b)) room).
    destruct (RawCodec.run _ inp room) as [[[k o] st'] e]. exact IH.
  - destruct room as [|room]; [simpl; lia|].
    specialize (IH (RawCodec.next_after_payload n) room).
    destruct (RawCodec.run _ inp room) as [[[k o] st'] e]. simpl. lia.
Qed.

Lemma raw_production_bounded isz osz : production_bounded (RawCodec.lib isz osz).
Proof.
  intros st inp room. cbn [ZSTD_decompressStream RawCodec.lib].
  unfold RawCodec.decompressStream.
  pose proof (raw_run_produced inp st room) as Ho.
  destruct (RawCodec.run st inp room) as [[[k o] st'] e]. destruct e; exact Ho.
Qed.

Section Runs.

Context {D : Type} (zstd : api D).

Lemma run_via_read_loop d0 w :
  ZSTD_createDStream zstd = Some d0 ->
  ZSTD_isError (fst (ZSTD_initDStream zstd d0)) = false ->
  Forall (eq true) (firstn 2 (w_malloc w)) ->
  exists w1, w_src w1 = w_src w /\ w_dst w1 = w_dst w /\ w_out w1 = w_out w /\
    w_trace w1 = w_trace w ++ setup_ok (ZSTD_DStreamInSize zstd) (ZSTD_DStreamOutSize zstd) /\
    forall fuel src dst ex d' w2,
      read_loop zstd fuel src dst (snd (ZSTD_initDStream zstd d0)) w1 = Some ((ex, d'), w2) ->
      exists w', zstd_decompress_fd zstd fuel src dst w = Some (exit_rc ex, w') /\
        w_out w' = w_out w2 /\ w_trace w' = w_trace w2 ++ cleanup.
Proof.
  intros Hc Hi Hm.
  exists (mkWorld (tl (tl (w_malloc w))) (w_src w) (w_dst w) (w_out w)
            (w_trace w ++ setup_ok (ZSTD_DStreamInSize zstd) (ZSTD_DStreamOutSize zstd))).
  repeat split. intros fuel src dst ex d' w2 Hrl.
  unfold zstd_decompress_fd, bind at 1, createDStream. rewrite Hc. cbv beta iota.
  unfold bind at 1, initDStream.
  destruct (ZSTD_initDStream zstd d0) as [r d1]. simpl in Hi, Hrl.
  rewrite Hi. cbv beta iota.
  assert (Hm2 : (exists l, w_malloc w = true :: true :: l) \/ w_malloc w = [true] \/
                w_malloc w = []).
  { destruct (w_malloc w) as [|a [|b l]]; simpl in Hm.
    - auto.
    - inversion Hm; subst. auto.
    - inversion Hm as [|? ? Ha Hm']; inversion Hm'; subst. eauto. }
  unfold bind, malloc, ret, freeDStream, free, emit.
  cbn -[read_loop]. destruct Hm2 as [[l E]|[E|E]]; rewrite E in Hrl |- *; cbn -[read_loop];
  rewrite <- !app_assoc; cbn [app]; unfold setup_ok in Hrl; cbn in Hrl; rewrite Hrl;
  eexists; (split; [reflexivity|]); simpl; (split; [reflexivity|]); now rewrite <- !app_assoc.
Qed.

End Runs.

Section WithinRun.
Context {D : Type} (zstd : api D).
Hypothesis Hprod : production_bounded zstd.

Lemma run_within fuel src dst w rc w' :
  zstd_decompress_fd zstd fuel src dst w = Some (rc, w') ->
  exists t, w_trace w' = w_trace w ++ t /\ Forall (within_out (ZSTD_DStreamOutSize zstd)) t.
Proof.
  intros H. unfold zstd_decompress_fd, bind, createDStream in H.
  destruct (ZSTD_createDStream zstd) as [d|]; simpl in H.
  2:{ inversion H; subst. eexists. split; [reflexivity|]. repeat constructor. }
  unfold initDStream in H. destruct (ZSTD_initDStream zstd d) as [r d1]. simpl in H.
  destruct (ZSTD_isError r) eqn:He; simpl in H.
  { inversion H; subst. eexists. split; [simpl; rewrite <- !app_assoc; reflexivity|].
    repeat constructor. }
  set (a := match w_malloc w with [] => true | x :: _ => x end) in H.
  set (b := match tl (w_malloc w) with [] => true | x :: _ => x end) in H.
  clearbody a b.
  destruct (negb a || negb b) eqn:Hab.
  - inversion H; subst. eexists. split; [simpl; rewrite <- !app_assoc; reflexivity|].
    repeat constructor.
  - destruct (read_loop zstd fuel src dst d1 _) as [[[ex d2] w2]|] eqn:Hl;
      [|discriminate].
    apply (read_loop_within zstd Hprod) in Hl. destruct Hl as [s [Ht Hs]]. simpl in Ht.
    inversion H; subst.
    exists ([EvCreateDStream true; EvInitDStream false;
             EvMalloc InBuf (ZSTD_DStreamInSize zstd) a;
             EvMalloc OutBuf (ZSTD_DStreamOutSize zstd) b] ++ s ++
             [EvFree InBuf a; EvFree OutBuf b; EvFreeDStream]).
    split; [simpl; rewrite Ht, <- !app_assoc; reflexivity|].
    repeat (apply Forall_app; split); repeat constructor. exact Hs.
Qed.

End WithinRun.

Section Extras.
Context {D : Type} (zstd : api D).

(** The first failed call ends the transform: the call returns 1 and
    makes no further read, decompression step or write; after a failed
    read, decompression step or write only the three releases follow, and
    no call before it failed. *)
Theorem first_failure_ends_transform fuel src dst w rc w' t pre e post :
  zstd_decompress_fd zstd fuel src dst w = Some (rc, w') ->
  w_trace w' = w_trace w ++ t -> t = pre ++ e :: post -> is_failure e = true ->
  rc = 1%Z /\ forallb (fun x => negb (is_io x)) post = true /\
  (is_io e = true -> post = cleanup /\ existsb is_failure pre = false).
Proof.
  intros H Ht Hs Hf.
  exact (run_failure_last src dst _ _ t rc pre e post (run_tr_of zstd _ _ _ _ _ _ _ H Ht) Hs Hf).
Qed.

(** Every read is on [src_fd] for [ZSTD_DStreamInSize()] bytes, every
    write is on [dst_fd] of at least one byte, and every decompression
    step is made with the input cursor strictly inside the chunk. *)
Theorem calls_well_formed fuel src dst w rc w' t :
  zstd_decompress_fd zstd fuel src dst w = Some (rc, w') ->
  w_trace w' = w_trace w ++ t ->
  Forall (call_ok src dst (ZSTD_DStreamInSize zstd)) t.
Proof.
  intros H Ht. exact (run_calls src dst _ _ t rc (run_tr_of zstd _ _ _ _ _ _ _ H Ht)).
Qed.


(** An empty source: once setup succeeds, the call makes one read, which
    returns 0, never calls [ZSTD_decompressStream], writes nothing,
    releases everything and returns 0. *)
Theorem empty_source_succeeds fuel src dst w d0 :
  ZSTD_createDStream zstd = Some d0 ->
  ZSTD_isError (fst (ZSTD_initDStream zstd d0)) = false ->
  Forall (eq true) (firstn 2 (w_malloc w)) ->
  w_src w = [] -> 0 < fuel ->
  exists w', zstd_decompress_fd zstd fuel src dst w = Some (0%Z, w') /\
    w_out w' = w_out w /\
    w_trace w' = w_trace w ++ setup_ok (ZSTD_DStreamInSize zstd) (ZSTD_DStreamOutSize zstd)
                 ++ EvRead src (ZSTD_DStreamInSize zstd) 0 :: cleanup.
Proof.
  intros Hc Hi Hm Hs Hf.
  destruct (run_via_read_loop zstd d0 w Hc Hi Hm) as (w1 & Hs1 & Hd1 & Ho1 & Ht1 & Hrun).
  destruct fuel as [|fuel]; [lia|].
  destruct (Hrun (S fuel) src dst (OuterEnd 0) (snd (ZSTD_initDStream zstd d0))
              (mkWorld (w_malloc w1) [] (w_dst w1) (w_out w1)
                 (w_trace w1 ++ [EvRead src (ZSTD_DStreamInSize zstd) 0])))
    as (w' & Hr & Ho & Ht).
  { cbn [read_loop]. unfold bind, read. rewrite Hs1, Hs. reflexivity. }
  exists w'. split; [exact Hr|]. rewrite Ho, Ht. simpl. rewrite Ho1, Ht1.
  split; [reflexivity|]. now rewrite <- !app_assoc.
Qed.

(** With a library that never produces more than the room it is given,
    every decompression step produces, and every write passes, at most
    [ZSTD_DStreamOutSize()] bytes. *)
Theorem writes_within_out_buffer (Hprod : production_bounded zstd) fuel src dst w rc w' t :
  zstd_decompress_fd zstd fuel src dst w = Some (rc, w') ->
  w_trace w' = w_trace w ++ t ->
  Forall (within_out (ZSTD_DStreamOutSize zstd)) t.
Proof.
  intros H Ht. destruct (run_within zstd Hprod _ _ _ _ _ _ H) as [t' [Ht' Hf]].
  rewrite Ht in Ht'. apply app_inv_head in Ht'. now subst.
Qed.

End Extras.

Section PartialRuns.
Context {D : Type} (zstd : api D).
Variable R : D -> list byte -> list byte -> Prop.
Hypothesis codec_step : forall d pre suf owe, R d (pre ++ suf) owe -> pre <> [] ->
  match ZSTD_decompressStream zstd d pre (ZSTD_DStreamOutSize zstd) with
  | (r, k, o, d') => ZSTD_isError r = false /\ k <= length pre /\ (0 < k \/ o <> []) /\
      exists owe', owe = o ++ owe' /\ R d' (skipn k pre ++ suf) owe'
  end.

(** A read error after some pieces of a stream: the call returns 1, and
    what it wrote is a prefix of what the stream decodes to, the rest
    being what remains to be decoded from the bytes never delivered. *)
Theorem read_error_keeps_prefix fuel src dst w d0 chunks rest tail owe :
  ZSTD_createDStream zstd = Some d0 ->
  ZSTD_isError (fst (ZSTD_initDStream zstd d0)) = false ->
  0 < ZSTD_DStreamInSize zstd ->
  Forall (eq true) (firstn 2 (w_malloc w)) ->
  w_src w = map RdData chunks ++ RdError :: rest -> Forall (fun c => c <> []) chunks ->
  R (snd (ZSTD_initDStream zstd d0)) (concat chunks ++ tail) owe ->
  Forall (eq WrAll) (w_dst w) ->
  length (concat chunks) + length owe + 2 <= fuel ->
  exists w' o, zstd_decompress_fd zstd fuel src dst w = Some (1%Z, w') /\
    w_out w' = w_out w ++ o /\
    exists d' owe', owe = o ++ owe' /\ R d' tail owe'.
Proof.
  intros Hc Hi Hisz Hm Hs Hne HR Hw Hf.
  destruct (run_via_read_loop zstd d0 w Hc Hi Hm) as (w1 & Hs1 & Hd1 & Ho1 & Ht1 & Hrun).
  rewrite <- Hs1 in Hs. rewrite <- Hd1 in Hw.
  destruct (read_loop_partial zstd R codec_step fuel src dst _ chunks (RdError :: rest) tail owe w1
              Hisz Hs ltac:(eauto) Hne HR Hw Hf) as (d' & w2 & o & owe' & Hrl & Howe & HR' & Ho).
  destruct (Hrun _ _ _ _ _ _ Hrl) as (w' & Hr & Ho' & _).
  exists w', o. split; [exact Hr|]. split; [now rewrite Ho', Ho, Ho1|]. eauto.
Qed.

(** End of file after some pieces of a stream, complete or not: the call
    returns 0, and what it wrote is a prefix of what the stream decodes to,
    the rest being what remains to be decoded from the bytes never
    delivered. *)
Theorem eof_mid_stream_succeeds fuel src dst w d0 chunks tail owe :
  ZSTD_createDStream zstd = Some d0 ->
  ZSTD_isError (fst (ZSTD_initDStream zstd d0)) = false ->
  0 < ZSTD_DStreamInSize zstd ->
  Forall (eq true) (firstn 2 (w_malloc w)) ->
  w_src w = map RdData chunks -> Forall (fun c => c <> []) chunks ->
  R (snd (ZSTD_initDStream zstd d0)) (concat chunks ++ tail) owe ->
  Forall (eq WrAll) (w_dst w) ->
  length (concat chunks) + length owe + 2 <= fuel ->
  exists w' o, zstd_decompress_fd zstd fuel src dst w = Some (0%Z, w') /\
    w_out w' = w_out w ++ o /\
    exists d' owe', owe = o ++ owe' /\ R d' tail owe'.
Proof.
  intros Hc Hi Hisz Hm Hs Hne HR Hw Hf.
  destruct (run_via_read_loop zstd d0 w Hc Hi Hm) as (w1 & Hs1 & Hd1 & Ho1 & Ht1 & Hrun).
  rewrite <- Hs1, <- (app_nil_r (map RdData chunks)) in Hs. rewrite <- Hd1 in Hw.
  destruct (read_loop_partial zstd R codec_step fuel src dst _ chunks [] tail owe w1
              Hisz Hs ltac:(auto) Hne HR Hw Hf) as (d' & w2 & o & owe' & Hrl & Howe & HR' & Ho).
  destruct (Hrun _ _ _ _ _ _ Hrl) as (w' & Hr & Ho' & _).
  exists w', o. split; [exact Hr|]. split; [now rewrite Ho', Ho, Ho1|]. eauto.
Qed.

End PartialRuns.

(** ** The theorems on sample runs *)

Lemma resources_released_once_witness :
  zstd_decompress_fd (RawCodec.lib 4 1) 20 3 4 ok_world = Some (0%Z, ok_final) /\
  w_trace ok_final = w_trace ok_world ++ w_trace ok_final /\
  count_ev is_create_ok (w_trace ok_final) = count_ev is_free_dstream (w_trace ok_final).
Proof.
  assert (H : zstd_decompress_fd (RawCodec.lib 4 1) 20 3 4 ok_world = Some (0%Z, ok_final))
    by (vm_compute; reflexivity).
  split; [exact H|]. split; [reflexivity|].
  exact (proj1 (resources_released_once (RawCodec.lib 4 1) 20 3 4 ok_world 0 ok_final
                  (w_trace ok_final) H eq_refl)).
Defined.

Lemma short_write_aborts_witness :
  zstd_decompress_fd (RawCodec.lib 4 4) 10 3 4 short_world = Some (1%Z, short_final) /\
  w_trace short_final = w_trace short_world ++
    [EvCreateDStream true; EvInitDStream false; EvMalloc InBuf 4 true;
     EvMalloc OutBuf 4 true; EvRead 3 4 3; EvDecompressStream 3 0 4 0 false 3 2]
    ++ EvWrite 4 2 1 :: [EvFree InBuf true; EvFree OutBuf true; EvFreeDStream] /\
  1%Z <> Z.of_nat 2 /\
  ((1 = 1)%Z /\ [EvFree InBuf true; EvFree OutBuf true; EvFreeDStream]
              = [EvFree InBuf true; EvFree OutBuf true; EvFreeDStream]).
Proof.
  assert (H : zstd_decompress_fd (RawCodec.lib 4 4) 10 3 4 short_world = Some (1%Z, short_final))
    by (vm_compute; reflexivity).
  assert (Hr : 1%Z <> Z.of_nat 2) by (simpl; lia).
  split; [exact H|]. split; [reflexivity|]. split; [exact Hr|].
  exact (short_write_aborts (RawCodec.lib 4 4) 10 3 4 short_world 1 short_final
           [EvCreateDStream true; EvInitDStream false; EvMalloc InBuf 4 true;
            EvMalloc OutBuf 4 true; EvRead 3 4 3; EvDecompressStream 3 0 4 0 false 3 2]
           [EvFree InBuf true; EvFree OutBuf true; EvFreeDStream] 2 1 H eq_refl Hr).
Defined.

Lemma read_results_drive_loop_witness :
  zstd_decompress_fd (RawCodec.lib 4 1) 20 3 4 ok_world = Some (0%Z, ok_final) /\
  w_trace ok_final = w_trace ok_world ++ w_trace ok_final /\
  exists pre, w_trace ok_final =
    pre ++ [EvRead 3 4 0; EvFree InBuf true; EvFree OutBuf true; EvFreeDStream].
Proof.
  assert (H : zstd_decompress_fd (RawCodec.lib 4 1) 20 3 4 ok_world = Some (0%Z, ok_final))
    by (vm_compute; reflexivity).
  split; [exact H|]. split; [reflexivity|].
  exact (proj2 (proj2 (proj2 (read_results_drive_loop (RawCodec.lib 4 1) 20 3 4 ok_world 0
           ok_final (w_trace ok_final) H eq_refl))) eq_refl).
Defined.

Lemma setup_failures_clean_witness :
  zstd_decompress_fd (RawCodec.lib 4 4) 10 3 4 nomem_world = Some (1%Z, nomem_final) /\
  w_trace nomem_final = w_trace nomem_world ++ w_trace nomem_final /\
  In (EvMalloc OutBuf 4 false) (w_trace nomem_final) /\
  w_out nomem_final = w_out nomem_world.
Proof.
  assert (H : zstd_decompress_fd (RawCodec.lib 4 4) 10 3 4 nomem_world = Some (1%Z, nomem_final))
    by (vm_compute; reflexivity).
  assert (Hi : In (EvMalloc OutBuf 4 false) (w_trace nomem_final))
    by (do 3 right; left; reflexivity).
  split; [exact H|]. split; [reflexivity|]. split; [exact Hi|].
  destruct (proj2 (proj2 (setup_failures_clean (RawCodec.lib 4 4) 10 3 4 nomem_world 1
              nomem_final (w_trace nomem_final) H eq_refl)) OutBuf 4 Hi)
    as (a1 & a2 & _ & _ & _ & Hout).
  exact Hout.
Defined.

Lemma chunk_drained_before_refill_witness :
  consumption_bounded (RawCodec.lib 4 1) /\
  zstd_decompress_fd (RawCodec.lib 4 1) 20 3 4 ok_world = Some (0%Z, ok_final) /\
  w_trace ok_final = w_trace ok_world ++ w_trace ok_final /\
  (2 = 2 /\ 1 = 0 + 1 /\ 0 + 1 < 2).
Proof.
  assert (H : zstd_decompress_fd (RawCodec.lib 4 1) 20 3 4 ok_world = Some (0%Z, ok_final))
    by (vm_compute; reflexivity).
  pose proof (RawFacts.raw_consumption_bounded 4 1) as Hb.
  split; [exact Hb|]. split; [exact H|]. split; [reflexivity|].
  exact (proj2 (proj2 (chunk_drained_before_refill (RawCodec.lib 4 1) Hb 20 3 4 ok_world 0
           ok_final (w_trace ok_final) H eq_refl))
           [EvCreateDStream true; EvInitDStream false; EvMalloc InBuf 4 true;
            EvMalloc OutBuf 1 true; EvRead 3 4 2; EvDecompressStream 2 0 1 0 false 2 1;
            EvWrite 4 1 1; EvRead 3 4 2]
           [EvWrite 4 1 1; EvDecompressStream 2 1 1 0 false 1 1; EvWrite 4 1 1;
            EvRead 3 4 0; EvFree InBuf true; EvFree OutBuf true; EvFreeDStream]
           2 0 1 0 1 1 (EvDecompressStream 2 1 1 0 false 1 1) eq_refl eq_refl).
Defined.

Lemma rc_zero_iff_no_failure_witness :
  zstd_decompress_fd (RawCodec.lib 4 1) 20 3 4 ok_world = Some (0%Z, ok_final) /\
  w_trace ok_final = w_trace ok_world ++ w_trace ok_final /\
  existsb is_failure (w_trace ok_final) = false.
Proof.
  assert (H : zstd_decompress_fd (RawCodec.lib 4 1) 20 3 4 ok_world = Some (0%Z, ok_final))
    by (vm_compute; reflexivity).
  split; [exact H|]. split; [reflexivity|].
  exact (proj1 (proj1 (rc_zero_iff_no_failure (RawCodec.lib 4 1) 20 3 4 ok_world 0 ok_final
           (w_trace ok_final) H eq_refl)) eq_refl).
Defined.

Lemma round_trip_witness :
  w_src ok_world = map RdData [[x03; x0a]; [x14; x1e]] /\
  concat [[x03; x0a]; [x14; x1e]] = RawCodec.compress [x0a; x14; x1e] /\
  exists w', zstd_decompress_fd (RawCodec.lib 4 1) 20 3 4 ok_world = Some (0%Z, w') /\
             w_out w' = w_out ok_world ++ [x0a; x14; x1e].
Proof.
  split; [reflexivity|]. split; [reflexivity|].
  apply (round_trip (RawCodec.lib 4 1) (fun st c o => RawCodec.decode st c = Some o)
           (RawFacts.raw_step_ok 4 1 ltac:(lia)) RawFacts.raw_done_ok
           RawCodec.compress (RawFacts.raw_compress_ok 4 1)
           20 3 4 ok_world [x0a; x14; x1e] [[x03; x0a]; [x14; x1e]] RawCodec.Header).
  - reflexivity.
  - reflexivity.
  - simpl. lia.
  - repeat constructor.
  - reflexivity.
  - repeat constructor; discriminate.
  - reflexivity.
  - constructor.
  - vm_compute. lia.
Defined.

Lemma failed_write_aborts_witness :
  zstd_decompress_fd (RawCodec.lib 4 4) 10 3 4 werr_world = Some (1%Z, werr_final) /\
  w_trace werr_final = w_trace werr_world ++
    [EvCreateDStream true; EvInitDStream false; EvMalloc InBuf 4 true;
     EvMalloc OutBuf 4 true; EvRead 3 4 3; EvDecompressStream 3 0 4 0 false 3 2]
    ++ EvWrite 4 2 (-1) :: [EvFree InBuf true; EvFree OutBuf true; EvFreeDStream] /\
  (-1 <> Z.of_nat 2)%Z /\
  ((1 = 1)%Z /\ [EvFree InBuf true; EvFree OutBuf true; EvFreeDStream]
              = [EvFree InBuf true; EvFree OutBuf true; EvFreeDStream]).
Proof.
  assert (H : zstd_decompress_fd (RawCodec.lib 4 4) 10 3 4 werr_world = Some (1%Z, werr_final))
    by (vm_compute; reflexivity).
  split; [exact H|]. split; [reflexivity|]. split; [lia|].
  exact (failed_write_aborts (RawCodec.lib 4 4) 10 3 4 werr_world 1 werr_final
           [EvCreateDStream true; EvInitDStream false; EvMalloc InBuf 4 true;
            EvMalloc OutBuf 4 true; EvRead 3 4 3; EvDecompressStream 3 0 4 0 false 3 2]
           [EvFree InBuf true; EvFree OutBuf true; EvFreeDStream] 2 (-1) H eq_refl
           ltac:(lia)).
Defined.

Lemma first_failure_ends_transform_witness :
  zstd_decompress_fd (RawCodec.lib 4 1) 10 3 4 rderr_world = Some (1%Z, rderr_final) /\
  w_trace rderr_final = w_trace rderr_world ++
    ([EvCreateDStream true; EvInitDStream false; EvMalloc InBuf 4 true;
      EvMalloc OutBuf 1 true; EvRead 3 4 2; EvDecompressStream 2 0 1 0 false 2 1;
      EvWrite 4 1 1] ++ EvRead 3 4 (-1) :: cleanup) /\
  is_failure (EvRead 3 4 (-1)) = true /\
  ((1 = 1)%Z /\ forallb (fun x => negb (is_io x)) cleanup = true /\
   (is_io (EvRead 3 4 (-1)) = true ->
    cleanup = cleanup /\
    existsb is_failure
      [EvCreateDStream true; EvInitDStream false; EvMalloc InBuf 4 true;
       EvMalloc OutBuf 1 true; EvRead 3 4 2; EvDecompressStream 2 0 1 0 false 2 1;
       EvWrite 4 1 1] = false)).
Proof.
  assert (H : zstd_decompress_fd (RawCodec.lib 4 1) 10 3 4 rderr_world = Some (1%Z, rderr_final))
    by (vm_compute; reflexivity).
  split; [exact H|]. split; [reflexivity|]. split; [reflexivity|].
  exact (first_failure_ends_transform (RawCodec.lib 4 1) 10 3 4 rderr_world 1 rderr_final _
           [EvCreateDStream true; EvInitDStream false; EvMalloc InBuf 4 true;
            EvMalloc OutBuf 1 true; EvRead 3 4 2; EvDecompressStream 2 0 1 0 false 2 1;
            EvWrite 4 1 1] (EvRead 3 4 (-1)) cleanup H eq_refl eq_refl eq_refl).
Defined.

Lemma calls_well_formed_witness :
  zstd_decompress_fd (RawCodec.lib 4 1) 20 3 4 ok_world = Some (0%Z, ok_final) /\
  Forall (call_ok 3 4 4) (w_trace ok_final).
Proof.
  assert (H : zstd_decompress_fd (RawCodec.lib 4 1) 20 3 4 ok_world = Some (0%Z, ok_final))
    by (vm_compute; reflexivity).
  split; [exact H|].
  exact (calls_well_formed (RawCodec.lib 4 1) 20 3 4 ok_world 0 ok_final _ H eq_refl).
Defined.


Lemma empty_source_succeeds_witness :
  w_src empty_world = [] /\
  exists w', zstd_decompress_fd (RawCodec.lib 4 4) 10 3 4 empty_world = Some (0%Z, w') /\
    w_out w' = w_out empty_world /\
    w_trace w' = w_trace empty_world ++ setup_ok 4 4 ++ EvRead 3 4 0 :: cleanup.
Proof.
  split; [reflexivity|].
  apply (empty_source_succeeds (RawCodec.lib 4 4) 10 3 4 empty_world RawCodec.Header).
  - reflexivity.
  - reflexivity.
  - constructor.
  - reflexivity.
  - lia.
Defined.

Lemma read_error_keeps_prefix_witness :
  w_src rderr_world = map RdData [[x03; x0a]] ++ [RdError] /\
  RawCodec.decode RawCodec.Header ([x03; x0a] ++ [x14; x1e]) = Some [x0a; x14; x1e] /\
  exists w' o, zstd_decompress_fd (RawCodec.lib 4 1) 10 3 4 rderr_world = Some (1%Z, w') /\
    w_out w' = w_out rderr_world ++ o /\
    exists d' owe', [x0a; x14; x1e] = o ++ owe' /\ RawCodec.decode d' [x14; x1e] = Some owe'.
Proof.
  split; [reflexivity|]. split; [reflexivity|].
  apply (read_error_keeps_prefix (RawCodec.lib 4 1) (fun st c o => RawCodec.decode st c = Some o)
           (RawFacts.raw_step_ok 4 1 ltac:(lia))
           10 3 4 rderr_world RawCodec.Header [[x03; x0a]] [] [x14; x1e] [x0a; x14; x1e]).
  - reflexivity.
  - reflexivity.
  - simpl. lia.
  - constructor.
  - reflexivity.
  - repeat constructor; discriminate.
  - reflexivity.
  - constructor.
  - simpl. lia.
Defined.

Lemma eof_mid_stream_succeeds_witness :
  w_src cut_world = map RdData [[x03; x0a]] /\
  RawCodec.decode RawCodec.Header ([x03; x0a] ++ [x14; x1e]) = Some [x0a; x14; x1e] /\
  exists w' o, zstd_decompress_fd (RawCodec.lib 4 1) 10 3 4 cut_world = Some (0%Z, w') /\
    w_out w' = w_out cut_world ++ o /\
    exists d' owe', [x0a; x14; x1e] = o ++ owe' /\ RawCodec.decode d' [x14; x1e] = Some owe'.
Proof.
  split; [reflexivity|]. split; [reflexivity|].
  apply (eof_mid_stream_succeeds (RawCodec.lib 4 1) (fun st c o => RawCodec.decode st c = Some o)
           (RawFacts.raw_step_ok 4 1 ltac:(lia))
           10 3 4 cut_world RawCodec.Header [[x03; x0a]] [x14; x1e] [x0a; x14; x1e]).
  - reflexivity.
  - reflexivity.
  - simpl. lia.
  - constructor.
  - reflexivity.
  - repeat constructor; discriminate.
  - reflexivity.
  - constructor.
  - simpl. lia.
Defined.

Lemma writes_within_out_buffer_witness :
  zstd_decompress_fd (RawCodec.lib 4 1) 20 3 4 ok_world = Some (0%Z, ok_final) /\
  Forall (within_out 1) (w_trace ok_final).
Proof.
  assert (H : zstd_decompress_fd (RawCodec.lib 4 1) 20 3 4 ok_world = Some (0%Z, ok_final))
    by (vm_compute; reflexivity).
  split; [exact H|].
  exact (writes_within_out_buffer (RawCodec.lib 4 1) (raw_production_bounded 4 1)
           20 3 4 ok_world 0 ok_final _ H eq_refl).
Defined.
